(** * The router RPC sub-server ([routerrpc.Server])

    A shallow embedding of the transport-facing router server: its
    start/stop flags, the single-session guard of [HtlcInterceptor], the
    payment submission and tracking handlers, the mission-control query
    and [BuildRoute].  Collaborators that live behind [s.cfg] (router,
    control tower, mission control, marshallers) are an interface record,
    as they are Go interfaces and struct fields in the source. *)

From Stdlib Require Import ZArith Lia.
From stdpp Require Import base option list gmap strings.

Local Open Scope Z_scope.

(** ** Machine integers *)

(** Two's complement reduction of an integer to [int32], [int64] and
    [uint64]. *)
Definition wrap32 (z : Z) : Z := (z + 2 ^ 31) mod 2 ^ 32 - 2 ^ 31.
Definition wrap64 (z : Z) : Z := (z + 2 ^ 63) mod 2 ^ 64 - 2 ^ 63.
Definition wrapU64 (z : Z) : Z := z mod 2 ^ 64.

Definition is_int32 (z : Z) : Prop := - 2 ^ 31 <= z < 2 ^ 31.
Definition is_int64 (z : Z) : Prop := - 2 ^ 63 <= z < 2 ^ 63.
Definition is_uint64 (z : Z) : Prop := 0 <= z < 2 ^ 64.

(** ** [sync/atomic] on an [int32] cell

    Each operation takes the cell's content and returns the new content
    together with the operation's result; it is one indivisible step. *)
Module atomic.

Definition AddInt32 (cell delta : Z) : Z * Z :=
  let n := wrap32 (cell + delta) in (n, n).

Definition CompareAndSwapInt32 (cell old new : Z) : Z * bool :=
  if decide (cell = old) then (new, true) else (cell, false).

End atomic.

(** ** Errors: [btcutil/er], gRPC [codes] and [status] *)
Module er.

(** The error codes the server tests for or creates. *)
Inductive ErrorCode : Set :=
| ErrPaymentInFlight
| ErrAlreadyPaid
| ErrPaymentNotInitiated
| errServerShuttingDown
| ErrInterceptorAlreadyExists.

#[global] Instance ErrorCode_eq_dec : EqDecision ErrorCode.
Proof. solve_decision. Defined.

(** A non-nil [er.R]: an optional code (errors made by [er.New] and
    [er.Errorf] carry none) and the text [String()] renders. *)
Record R : Set := mkR { code : option ErrorCode; String : string }.

(** [c.Is(err)] for a possibly nil [err]. *)
Definition Is (c : ErrorCode) (err : option R) : bool :=
  match err with
  | Some e => bool_decide (code e = Some c)
  | None => false
  end.

(** The detail text given to [CodeWithDetail] for the two codes this
    package declares. *)
Definition routerrpc_detail (c : ErrorCode) : string :=
  match c with
  | errServerShuttingDown => "routerrpc server shutting down"
  | ErrInterceptorAlreadyExists => "interceptor already exists"
  | _ => ""
  end.

(** [c.Default()]. *)
Definition Default (c : ErrorCode) : R :=
  {| code := Some c; String := routerrpc_detail c |}.

End er.

Inductive codes : Set :=
| codes_OK
| codes_Unknown
| codes_NotFound
| codes_AlreadyExists.

#[global] Instance codes_eq_dec : EqDecision codes.
Proof. solve_decision. Defined.

(** A non-nil Go [error] as the handlers return it. *)
Inductive error : Set :=
| status_Error (c : codes) (msg : string)
| native (e : er.R)
| ctx_Err (msg : string)
| transport_error (msg : string).

(** [er.Native(err)]: nil stays nil. *)
Definition er_Native (err : option er.R) : option error := native <$> err.

(** [status.Code(err)]: what a gRPC caller can branch on without reading
    the message text. *)
Definition status_Code (err : option error) : codes :=
  match err with
  | None => codes_OK
  | Some (status_Error c _) => c
  | Some _ => codes_Unknown
  end.

(** ** Channels that are only ever closed *)
Inductive chan : Set := chan_open | chan_closed.

#[global] Instance chan_eq_dec : EqDecision chan.
Proof. solve_decision. Defined.

(** A Go call either returns or panics. *)
Inductive exec (A : Type) : Type :=
| Ret (a : A)
| Panic (msg : string).
Arguments Ret {A} a.
Arguments Panic {A} msg.

Definition exec_bind {A B} (m : exec A) (k : A -> exec B) : exec B :=
  match m with
  | Ret a => k a
  | Panic msg => Panic msg
  end.

(** [close(c)]. *)
Definition close (c : chan) : exec chan :=
  match c with
  | chan_open => Ret chan_closed
  | chan_closed => Panic "close of closed channel"
  end.

(** ** The server value *)
Record Server : Set := mkServer {
  started : Z;
  shutdown : Z;
  forwardInterceptorActive : Z;
  quit : chan
}.

(** The value [New] builds: [&Server{cfg: cfg, quit: make(chan struct{})}]. *)
Definition New : Server :=
  {| started := 0; shutdown := 0; forwardInterceptorActive := 0;
     quit := chan_open |}.

Definition set_started (v : Z) (s : Server) : Server :=
  {| started := v; shutdown := shutdown s;
     forwardInterceptorActive := forwardInterceptorActive s; quit := quit s |}.
Definition set_shutdown (v : Z) (s : Server) : Server :=
  {| started := started s; shutdown := v;
     forwardInterceptorActive := forwardInterceptorActive s; quit := quit s |}.
Definition set_forwardInterceptorActive (v : Z) (s : Server) : Server :=
  {| started := started s; shutdown := shutdown s;
     forwardInterceptorActive := v; quit := quit s |}.
Definition set_quit (c : chan) (s : Server) : Server :=
  {| started := started s; shutdown := shutdown s;
     forwardInterceptorActive := forwardInterceptorActive s; quit := c |}.

(** [Server.Start]: both branches return nil. *)
Definition Start (s : Server) : Server * option er.R :=
  let '(cell, n) := atomic.AddInt32 (started s) 1 in
  let s := set_started cell s in
  if negb (bool_decide (n = 1)) then (s, None) else (s, None).

(** [Server.Stop]. *)
Definition Stop (s : Server) : exec (Server * option er.R) :=
  let '(cell, n) := atomic.AddInt32 (shutdown s) 1 in
  let s := set_shutdown cell s in
  if negb (bool_decide (n = 1)) then Ret (s, None)
  else exec_bind (close (quit s)) (fun c => Ret (set_quit c s, None)).

(** [n] consecutive calls of a method, dropping the returned errors. *)
Definition calls (f : Server -> exec (Server * option er.R)) (n : N)
    (s : Server) : exec Server :=
  N.iter n (fun m => exec_bind m (fun s => exec_bind (f s) (fun r => Ret r.1)))
    (Ret s).

(** ** [HtlcInterceptor]

    The handler is the guard, the call of [run] and the deferred release.
    [run] (the forward interceptor's loop) blocks for the life of the
    session, so the guard and the release are two separate atomic steps
    between which other calls interleave. *)

(** The guard: returns the rejection, or [None] when the session is
    admitted. *)
Definition HtlcInterceptor_enter (s : Server) : Server * option error :=
  let '(cell, swapped) :=
    atomic.CompareAndSwapInt32 (forwardInterceptorActive s) 0 1 in
  if negb swapped
  then (s, er_Native (Some (er.Default er.ErrInterceptorAlreadyExists)))
  else (set_forwardInterceptorActive cell s, None).

(** The deferred release and the return of [run]'s result. *)
Definition HtlcInterceptor_exit (s : Server) (r : option er.R)
    : Server * option error :=
  let '(cell, _) :=
    atomic.CompareAndSwapInt32 (forwardInterceptorActive s) 1 0 in
  (set_forwardInterceptorActive cell s, er_Native r).

(** The whole handler, for a [run] given as a state transformer. *)
Definition HtlcInterceptor (run : Server -> Server * option er.R)
    (s : Server) : Server * option error :=
  match HtlcInterceptor_enter s with
  | (s, Some e) => (s, Some e)
  | (s, None) => let '(s, r) := run s in HtlcInterceptor_exit s r
  end.

(** Interleaved interceptor calls: a client opens a stream, or the [run]
    of an admitted stream ends with some result. *)
Inductive icall : Set :=
| Connect (id : nat)
| Finish (id : nat) (r : option er.R).

Record sessions : Set := mkSessions {
  srv : Server;
  running : list nat;
  replies : list (nat * option error)
}.

Definition sessions_step (w : sessions) (c : icall) : sessions :=
  match c with
  | Connect id =>
      match HtlcInterceptor_enter (srv w) with
      | (s, Some e) =>
          {| srv := s; running := running w;
             replies := (id, Some e) :: replies w |}
      | (s, None) =>
          {| srv := s; running := id :: running w; replies := replies w |}
      end
  | Finish id r =>
      if decide (id ∈ running w) then
        let '(s, e) := HtlcInterceptor_exit (srv w) r in
        {| srv := s; running := filter (λ j, j ≠ id) (running w);
           replies := (id, e) :: replies w |}
      else w
  end.

Definition sessions_run (w : sessions) (t : list icall) : sessions :=
  foldl sessions_step w t.

Definition sessions_init (s : Server) : sessions :=
  {| srv := s; running := []; replies := [] |}.

(** Either no session runs and the flag is 0, or exactly one runs and the
    flag is 1. *)
Definition sessions_inv (w : sessions) : Prop :=
  (forwardInterceptorActive (srv w) = 0 /\ running w = [])
  \/ (forwardInterceptorActive (srv w) = 1 /\ exists id, running w = [id]).

(** ** Streams and [select] *)

Definition bytes : Set := list Byte.byte.

(** How a handler's call ends: it returns (nil or an error), or it stays
    parked in a [select] none of whose cases ever becomes ready. *)
Inductive outcome : Set :=
| returned (err : option error)
| blocked.

(** The server side of a gRPC stream: the messages delivered so far, the
    error of the stream's context once it is done, and the transport
    fault, if any: [Some (n, e)] makes every [Send] after the first [n]
    messages fail with [e]. *)
Record ServerStream (M : Type) : Type := mkStream {
  sent : list M;
  Context_Err : option error;
  Send_fault : option (nat * error)
}.
Arguments mkStream {M} _ _ _.
Arguments sent {M} _.
Arguments Context_Err {M} _.
Arguments Send_fault {M} _.

Definition push {M} (m : M) (st : ServerStream M) : ServerStream M :=
  {| sent := sent st ++ [m]; Context_Err := Context_Err st;
     Send_fault := Send_fault st |}.

(** [stream.Send(m)]. *)
Definition Send {M} (m : M) (st : ServerStream M)
    : ServerStream M * option error :=
  match Send_fault st with
  | Some (n, e) =>
      if decide (n ≤ length (sent st))%nat then (st, Some e)
      else (push m st, None)
  | None => (push m st, None)
  end.

(** [select] over the cases that are ready, listed in source order: it
    blocks when none is, and otherwise takes any one of them; [k] is the
    runtime's draw. *)
Definition select {A} (k : nat) (ready : list A) : option A :=
  ready !! Nat.modulo k (length ready).

(** ** Collaborators behind [s.cfg] *)

(** Modelled from the spec: a payment's status, "Status ∈ {InFlight,
    Succeeded, Failed}"; the declaration of [channeldb.PaymentStatus] is
    outside the server file. *)
Inductive PaymentStatus : Set :=
| StatusInFlight
| StatusSucceeded
| StatusFailed.

#[global] Instance PaymentStatus_eq_dec : EqDecision PaymentStatus.
Proof. solve_decision. Defined.

(** What [Tower.SubscribePayment] hands out: the items the control tower
    puts on the [Updates] channel, in order, and whether it closes the
    channel after them. *)
Record ControlTowerSubscriber (P : Type) : Type := mkSubscriber {
  Updates : list P;
  Updates_closed : bool
}.
Arguments mkSubscriber {P} _ _.
Arguments Updates {P} _.
Arguments Updates_closed {P} _.

(** What [RouterBackend.SubscribeHtlcEvents] hands out: the events that
    arrive on [Updates()] and whether [Quit()] is closed. *)
Record HtlcClient (E : Type) : Type := mkHtlcClient {
  htlc_Updates : list E;
  htlc_Quit : bool
}.
Arguments mkHtlcClient {E} _ _.
Arguments htlc_Updates {E} _.
Arguments htlc_Quit {E} _.

Module routing.

Record DirectedNodePair (V : Type) : Type := mkPair { From : V; To : V }.
Arguments mkPair {V} _ _.
Arguments From {V} _.
Arguments To {V} _.

(** Amounts are [lnwire.MilliSatoshi], a [uint64]. *)
Record TimedPairResult (T : Type) : Type := mkTimedPairResult {
  FailTime : T;
  FailAmt : Z;
  SuccessTime : T;
  SuccessAmt : Z
}.
Arguments mkTimedPairResult {T} _ _ _ _.
Arguments FailTime {T} _.
Arguments FailAmt {T} _.
Arguments SuccessTime {T} _.
Arguments SuccessAmt {T} _.

(** [MissionControlPairSnapshot] embeds its [TimedPairResult]. *)
Record MissionControlPairSnapshot (V T : Type) : Type := mkPairSnapshot {
  Pair : DirectedNodePair V;
  Result : TimedPairResult T
}.
Arguments mkPairSnapshot {V T} _ _.
Arguments Pair {V T} _.
Arguments Result {V T} _.

End routing.

(** The types and operations the server file takes from other packages:
    the router, the control tower and mission control behind
    [s.cfg.Router] and [s.cfg.RouterBackend], whose common state is
    [backend], the marshallers, and helpers of [lntypes], [route],
    [lnwire] and [time].  A failing Go call is [inl err]. *)
Record Config : Type := mkConfig {
  Hash : Type;
  Vertex : Type;
  Time : Type;
  LightningPayment : Type;
  MPPayment : Type;
  Route : Type;
  HTLCAttemptInfo : Type;
  HtlcEvent : Type;
  SendPaymentRequest : Type;
  rpc_Route : Type;
  rpc_HTLCAttempt : Type;
  rpc_Payment : Type;
  rpc_HtlcEvent : Type;
  backend : Type;
  PaymentHash : LightningPayment -> Hash;
  Status : MPPayment -> PaymentStatus;
  NoInflightUpdates : SendPaymentRequest -> bool;
  MakeHash : bytes -> er.R + Hash;
  NewVertexFromBytes : bytes -> er.R + Vertex;
  ToSatoshis : Z -> Z;
  IsZero : Time -> bool;
  Unix : Time -> Z;
  extractIntentFromSendRequest : SendPaymentRequest -> er.R + LightningPayment;
  SendPaymentAsync : LightningPayment -> backend -> backend * option er.R;
  SendToRoute :
    Hash -> Route -> backend ->
    backend * (option HTLCAttemptInfo * option er.R);
  Router_BuildRoute :
    option Z -> list Vertex -> option Z -> Z -> backend -> er.R + Route;
  SubscribePayment :
    Hash -> backend -> er.R + ControlTowerSubscriber MPPayment;
  Backend_SubscribeHtlcEvents : backend -> er.R + HtlcClient HtlcEvent;
  GetHistorySnapshot :
    backend -> list (routing.MissionControlPairSnapshot Vertex Time);
  UnmarshalRoute : rpc_Route -> er.R + Route;
  MarshalRoute : Route -> er.R + rpc_Route;
  MarshalHTLCAttempt : HTLCAttemptInfo -> er.R + rpc_HTLCAttempt;
  MarshalPayment : MPPayment -> er.R + rpc_Payment;
  rpcHtlcEvent : HtlcEvent -> er.R + rpc_HtlcEvent
}.

(** [er.New] and [er.Errorf]: an error without a code. *)
Definition er_New (msg : string) : er.R := {| er.code := None; er.String := msg |}.

(** ** [trackPayment] *)

(** The cases of the [select] in [trackPayment]. *)
Inductive track_case (P : Type) : Type :=
| track_update (item : option P)
| track_quit
| track_ctx (e : error).
Arguments track_update {P} item.
Arguments track_quit {P}.
Arguments track_ctx {P} e.

(** The cases that are ready: the next item of [Updates] (or its
    closure, [ok = false]), the closed [quit] channel, the done context. *)
Definition track_ready {P M} (pending : list P) (closed : bool) (q : chan)
    (stream : ServerStream M) : list (track_case P) :=
  match pending with
  | item :: _ => [track_update (Some item)]
  | [] => if closed then [track_update None] else []
  end
  ++ (if decide (q = chan_closed) then [track_quit] else [])
  ++ match Context_Err stream with
     | Some e => [track_ctx e]
     | None => []
     end.

(** The body of the [Updates] case for a received item; [continue] is the
    next iteration of the loop. *)
Definition track_item (cfg : Config) (noInflightUpdates : bool)
    (result : MPPayment cfg) (stream : ServerStream (rpc_Payment cfg))
    (continue : ServerStream (rpc_Payment cfg) ->
                ServerStream (rpc_Payment cfg) * outcome)
    : ServerStream (rpc_Payment cfg) * outcome :=
  if noInflightUpdates && bool_decide (Status cfg result = StatusInFlight)
  then continue stream
  else
    match MarshalPayment cfg result with
    | inl err => (stream, returned (er_Native (Some err)))
    | inr rpcPayment =>
        match Send rpcPayment stream with
        | (stream, Some errr) => (stream, returned (Some errr))
        | (stream, None) => continue stream
        end
    end.

(** The [for { select { ... } }] loop of [trackPayment]; [sched] holds the
    runtime's draw for each iteration. *)
Fixpoint trackPayment_loop (cfg : Config) (s : Server)
    (noInflightUpdates : bool) (sched : list nat)
    (pending : list (MPPayment cfg)) (closed : bool)
    (stream : ServerStream (rpc_Payment cfg))
    : ServerStream (rpc_Payment cfg) * outcome :=
  match select (hd 0%nat sched) (track_ready pending closed (quit s) stream) with
  | None => (stream, blocked)
  | Some (track_update None) => (stream, returned None)
  | Some (track_update (Some result)) =>
      match pending with
      | [] => (stream, blocked)
      | _ :: rest =>
          track_item cfg noInflightUpdates result stream
            (trackPayment_loop cfg s noInflightUpdates (tl sched) rest closed)
      end
  | Some track_quit =>
      (stream, returned (er_Native (Some (er.Default er.errServerShuttingDown))))
  | Some (track_ctx e) => (stream, returned (Some e))
  end.

(** [Server.trackPayment]. *)
Definition trackPayment (cfg : Config) (s : Server) (paymentHash : Hash cfg)
    (stream : ServerStream (rpc_Payment cfg)) (noInflightUpdates : bool)
    (sched : list nat) (b : backend cfg)
    : ServerStream (rpc_Payment cfg) * outcome :=
  match SubscribePayment cfg paymentHash b with
  | inl err =>
      if er.Is er.ErrPaymentNotInitiated (Some err)
      then (stream, returned (Some (status_Error codes_NotFound (er.String err))))
      else (stream, returned (er_Native (Some err)))
  | inr subscription =>
      trackPayment_loop cfg s noInflightUpdates sched
        (Updates subscription) (Updates_closed subscription) stream
  end.

(** The updates the option lets through. *)
Definition let_through (cfg : Config) (noInflightUpdates : bool)
    (p : MPPayment cfg) : Prop :=
  ¬ (noInflightUpdates = true /\ Status cfg p = StatusInFlight).

#[local] Instance let_through_dec cfg noInflightUpdates p :
  Decision (let_through cfg noInflightUpdates p).
Proof. unfold let_through. apply _. Defined.

(** [Server.TrackPaymentV2]. *)
Record TrackPaymentRequest : Set := mkTrackPaymentRequest {
  track_PaymentHash : bytes;
  track_NoInflightUpdates : bool
}.

Definition TrackPaymentV2 (cfg : Config) (s : Server)
    (request : TrackPaymentRequest)
    (stream : ServerStream (rpc_Payment cfg)) (sched : list nat)
    (b : backend cfg) : ServerStream (rpc_Payment cfg) * outcome :=
  match MakeHash cfg (track_PaymentHash request) with
  | inl err => (stream, returned (er_Native (Some err)))
  | inr paymentHash =>
      trackPayment cfg s paymentHash stream
        (track_NoInflightUpdates request) sched b
  end.

(** [Server.SendPaymentV2]. *)
Definition SendPaymentV2 (cfg : Config) (s : Server)
    (req : SendPaymentRequest cfg)
    (stream : ServerStream (rpc_Payment cfg)) (sched : list nat)
    (b : backend cfg)
    : backend cfg * (ServerStream (rpc_Payment cfg) * outcome) :=
  match extractIntentFromSendRequest cfg req with
  | inl err => (b, (stream, returned (er_Native (Some err))))
  | inr payment =>
      match SendPaymentAsync cfg payment b with
      | (b, Some err) =>
          if er.Is er.ErrPaymentInFlight (Some err)
             || er.Is er.ErrAlreadyPaid (Some err)
          then (b, (stream, returned
                      (Some (status_Error codes_AlreadyExists (er.String err)))))
          else (b, (stream, returned (er_Native (Some err))))
      | (b, None) =>
          (b, trackPayment cfg s (PaymentHash cfg payment) stream
                (NoInflightUpdates cfg req) sched b)
      end
  end.

(** ** [SendToRouteV2] *)

Record SendToRouteRequest (cfg : Config) : Type := mkSendToRouteRequest {
  route_PaymentHash : bytes;
  route_Route : option (rpc_Route cfg)
}.
Arguments mkSendToRouteRequest {cfg} _ _.
Arguments route_PaymentHash {cfg} _.
Arguments route_Route {cfg} _.

(** The statements after the call of [Router.SendToRoute], on its two
    results. *)
Definition SendToRouteV2_reply (cfg : Config)
    (attempt : option (HTLCAttemptInfo cfg)) (err : option er.R)
    : option (rpc_HTLCAttempt cfg) * option error :=
  match attempt with
  | Some a =>
      match MarshalHTLCAttempt cfg a with
      | inl err => (None, er_Native (Some err))
      | inr rpcAttempt => (Some rpcAttempt, None)
      end
  | None =>
      match err with
      | Some e =>
          if er.Is er.ErrPaymentInFlight err || er.Is er.ErrAlreadyPaid err
          then (None, Some (status_Error codes_AlreadyExists (er.String e)))
          else (None, er_Native err)
      | None => (None, er_Native err)
      end
  end.

(** [Server.SendToRouteV2]. *)
Definition SendToRouteV2 (cfg : Config) (req : SendToRouteRequest cfg)
    (b : backend cfg)
    : backend cfg * (option (rpc_HTLCAttempt cfg) * option error) :=
  match route_Route req with
  | None =>
      (b, (None, er_Native (Some (er_New "unable to send, no routes provided"))))
  | Some r =>
      match UnmarshalRoute cfg r with
      | inl err => (b, (None, er_Native (Some err)))
      | inr route =>
          match MakeHash cfg (route_PaymentHash req) with
          | inl err => (b, (None, er_Native (Some err)))
          | inr hash =>
              let '(b, (attempt, err)) := SendToRoute cfg hash route b in
              (b, SendToRouteV2_reply cfg attempt err)
          end
      end
  end.

(** ** [BuildRoute] *)

Record BuildRouteRequest : Set := mkBuildRouteRequest {
  AmtMsat : Z;
  FinalCltvDelta : Z;
  OutgoingChanId : Z;
  HopPubkeys : list bytes
}.

(** A request as the wire format can carry it: [int64], [int32] and
    [uint64] fields. *)
Definition BuildRouteRequest_wf (req : BuildRouteRequest) : Prop :=
  is_int64 (AmtMsat req) /\ is_int32 (FinalCltvDelta req)
  /\ is_uint64 (OutgoingChanId req).

(** The loop that unmarshals the hop list. *)
Fixpoint BuildRoute_hops (cfg : Config) (pubkeys : list bytes)
    : er.R + list (Vertex cfg) :=
  match pubkeys with
  | [] => inr []
  | pubkeyBytes :: rest =>
      match NewVertexFromBytes cfg pubkeyBytes with
      | inl err => inl err
      | inr pubkey =>
          match BuildRoute_hops cfg rest with
          | inl err => inl err
          | inr hops => inr (pubkey :: hops)
          end
      end
  end.

(** [Server.BuildRoute]; the response is the marshalled route. *)
Definition BuildRoute (cfg : Config) (req : BuildRouteRequest)
    (b : backend cfg) : option (rpc_Route cfg) * option error :=
  match BuildRoute_hops cfg (HopPubkeys req) with
  | inl err => (None, er_Native (Some err))
  | inr hops =>
      let amt :=
        if negb (bool_decide (AmtMsat req = 0))
        then Some (wrapU64 (AmtMsat req)) else None in
      let outgoingChan :=
        if negb (bool_decide (OutgoingChanId req = 0))
        then Some (OutgoingChanId req) else None in
      match Router_BuildRoute cfg amt hops outgoingChan (FinalCltvDelta req) b with
      | inl err => (None, er_Native (Some err))
      | inr route =>
          match MarshalRoute cfg route with
          | inl err => (None, er_Native (Some err))
          | inr rpcRoute => (Some rpcRoute, None)
          end
      end
  end.

(** ** [SubscribeHtlcEvents] *)

Inductive htlc_case (E : Type) : Type :=
| htlc_update (event : E)
| htlc_ctx (e : error)
| htlc_client_quit
| htlc_quit.
Arguments htlc_update {E} event.
Arguments htlc_ctx {E} e.
Arguments htlc_client_quit {E}.
Arguments htlc_quit {E}.

Definition htlc_ready {E M} (pending : list E) (client_quit : bool) (q : chan)
    (stream : ServerStream M) : list (htlc_case E) :=
  match pending with
  | event :: _ => [htlc_update event]
  | [] => []
  end
  ++ match Context_Err stream with
     | Some e => [htlc_ctx e]
     | None => []
     end
  ++ (if client_quit then [htlc_client_quit] else [])
  ++ (if decide (q = chan_closed) then [htlc_quit] else []).

Fixpoint SubscribeHtlcEvents_loop (cfg : Config) (s : Server)
    (sched : list nat) (pending : list (HtlcEvent cfg)) (client_quit : bool)
    (stream : ServerStream (rpc_HtlcEvent cfg))
    : ServerStream (rpc_HtlcEvent cfg) * outcome :=
  match select (hd 0%nat sched) (htlc_ready pending client_quit (quit s) stream) with
  | None => (stream, blocked)
  | Some (htlc_update event) =>
      match pending with
      | [] => (stream, blocked)
      | _ :: rest =>
          match rpcHtlcEvent cfg event with
          | inl err => (stream, returned (er_Native (Some err)))
          | inr rpcEvent =>
              match Send rpcEvent stream with
              | (stream, Some err) => (stream, returned (Some err))
              | (stream, None) =>
                  SubscribeHtlcEvents_loop cfg s (tl sched) rest client_quit stream
              end
          end
      end
  | Some (htlc_ctx e) => (stream, returned (Some e))
  | Some htlc_client_quit =>
      (stream, returned
                 (er_Native (Some (er_New "htlc event subscription terminated"))))
  | Some htlc_quit =>
      (stream, returned (er_Native (Some (er.Default er.errServerShuttingDown))))
  end.

(** [Server.SubscribeHtlcEvents]. *)
Definition SubscribeHtlcEvents (cfg : Config) (s : Server)
    (stream : ServerStream (rpc_HtlcEvent cfg)) (sched : list nat)
    (b : backend cfg) : ServerStream (rpc_HtlcEvent cfg) * outcome :=
  match Backend_SubscribeHtlcEvents cfg b with
  | inl err => (stream, returned (er_Native (Some err)))
  | inr htlcClient =>
      SubscribeHtlcEvents_loop cfg s sched
        (htlc_Updates htlcClient) (htlc_Quit htlcClient) stream
  end.

(** ** [QueryMissionControl]

    The handler builds its response out of pointers and slices: each
    [*PairHistory] holds two slices into the arrays of the variable [pair]
    and a pointer to a [PairData].  The store below keeps every variable
    and object at an address, so that which entry refers to which variable
    is part of the result. *)

Record PairData : Set := mkPairData {
  FailTime : Z;
  FailAmtSat : Z;
  FailAmtMsat : Z;
  SuccessTime : Z;
  SuccessAmtSat : Z;
  SuccessAmtMsat : Z
}.

(** [toRPCPairData]; [data] is the value read through the pointer. *)
Definition toRPCPairData (cfg : Config)
    (data : routing.TimedPairResult (Time cfg)) : PairData :=
  {| FailAmtSat := wrap64 (ToSatoshis cfg (routing.FailAmt data));
     FailAmtMsat := wrap64 (routing.FailAmt data);
     SuccessAmtSat := wrap64 (ToSatoshis cfg (routing.SuccessAmt data));
     SuccessAmtMsat := wrap64 (routing.SuccessAmt data);
     FailTime :=
       if negb (IsZero cfg (routing.FailTime data))
       then Unix cfg (routing.FailTime data) else 0;
     SuccessTime :=
       if negb (IsZero cfg (routing.SuccessTime data))
       then Unix cfg (routing.SuccessTime data) else 0 |}.

Abbreviation loc := nat.

(** [v.Pair.From[:]] and [v.Pair.To[:]] for the variable [v] at an
    address. *)
Inductive slice : Set :=
| slice_From (v : loc)
| slice_To (v : loc).

Record PairHistory : Set := mkPairHistory {
  NodeFrom : slice;
  NodeTo : slice;
  History : loc
}.

Inductive object (cfg : Config) : Type :=
| obj_zero
| obj_snapshot (v : routing.MissionControlPairSnapshot (Vertex cfg) (Time cfg))
| obj_PairData (d : PairData)
| obj_PairHistory (h : PairHistory).
Arguments obj_zero {cfg}.
Arguments obj_snapshot {cfg} v.
Arguments obj_PairData {cfg} d.
Arguments obj_PairHistory {cfg} h.

(** Addresses are positions in the store. *)
Abbreviation store cfg := (list (object cfg)).

Definition alloc {cfg} (o : object cfg) (h : store cfg) : store cfg * loc :=
  (h ++ [o], length h).

Definition load_snapshot {cfg} (h : store cfg) (l : loc)
    : option (routing.MissionControlPairSnapshot (Vertex cfg) (Time cfg)) :=
  match h !! l with
  | Some (obj_snapshot v) => Some v
  | _ => None
  end.

(** The [range] loop.  [p] is the address of the loop variable, assigned
    anew in every iteration; [pair := p] declares a fresh variable, here
    [pair'].  A
    failed load (no such case arises, see [QueryMissionControl_loads]) ends
    the loop with [None]. *)
Fixpoint QueryMissionControl_loop (cfg : Config) (p : loc)
    (Pairs : list (routing.MissionControlPairSnapshot (Vertex cfg) (Time cfg)))
    (h : store cfg) (rpcPairs : list loc) : option (store cfg * list loc) :=
  match Pairs with
  | [] => Some (h, rpcPairs)
  | x :: rest =>
      let h := <[p := obj_snapshot x]> h in
      v ← load_snapshot h p;
      let '(h, pair') := alloc (obj_snapshot v) h in
      data ← routing.Result <$> load_snapshot h pair';
      let '(h, rpcData) := alloc (obj_PairData (toRPCPairData cfg data)) h in
      let '(h, rpcPair) :=
        alloc (obj_PairHistory
                 {| NodeFrom := slice_From pair'; NodeTo := slice_To pair';
                    History := rpcData |}) h in
      QueryMissionControl_loop cfg p rest h (rpcPairs ++ [rpcPair])
  end.

(** [Server.QueryMissionControl]: the final store and the [Pairs] of the
    response. *)
Definition QueryMissionControl (cfg : Config) (b : backend cfg)
    (h : store cfg) : option (store cfg * list loc) :=
  let snapshot := GetHistorySnapshot cfg b in
  let '(h, p) := alloc obj_zero h in
  QueryMissionControl_loop cfg p snapshot h [].

(** Reading a response back, as the marshaller does when it serialises
    it. *)
Definition read_slice {cfg} (h : store cfg) (sl : slice)
    : option (Vertex cfg) :=
  match sl with
  | slice_From v => (λ x, routing.From (routing.Pair x)) <$> load_snapshot h v
  | slice_To v => (λ x, routing.To (routing.Pair x)) <$> load_snapshot h v
  end.

Definition read_PairData {cfg} (h : store cfg) (l : loc) : option PairData :=
  match h !! l with
  | Some (obj_PairData d) => Some d
  | _ => None
  end.

Definition read_PairHistory {cfg} (h : store cfg) (l : loc)
    : option (Vertex cfg * Vertex cfg * PairData) :=
  match h !! l with
  | Some (obj_PairHistory e) =>
      f ← read_slice h (NodeFrom e);
      t ← read_slice h (NodeTo e);
      d ← read_PairData h (History e);
      Some (f, t, d)
  | _ => None
  end.

(** The addresses an entry occupies or refers to: itself, its [PairData]
    and the variables its slices point into. *)
Definition slice_var (sl : slice) : loc :=
  match sl with
  | slice_From v => v
  | slice_To v => v
  end.

Definition entry_refs {cfg} (h : store cfg) (l : loc) : list loc :=
  match h !! l with
  | Some (obj_PairHistory e) =>
      l :: History e :: slice_var (NodeFrom e)
        :: (if decide (slice_var (NodeTo e) = slice_var (NodeFrom e))
            then [] else [slice_var (NodeTo e)])
  | _ => [l]
  end.

(** What the response has to say for one snapshot pair. *)
Definition expected_entry (cfg : Config)
    (x : routing.MissionControlPairSnapshot (Vertex cfg) (Time cfg))
    : Vertex cfg * Vertex cfg * PairData :=
  (routing.From (routing.Pair x), routing.To (routing.Pair x),
   toRPCPairData cfg (routing.Result x)).

(** The objects the loop allocates for the pairs [xs] when the next free
    address is [n], and the addresses of the entries among them. *)
Fixpoint allocated (cfg : Config) (n : loc)
    (xs : list (routing.MissionControlPairSnapshot (Vertex cfg) (Time cfg)))
    : store cfg :=
  match xs with
  | [] => []
  | x :: rest =>
      obj_snapshot x
        :: obj_PairData (toRPCPairData cfg (routing.Result x))
        :: obj_PairHistory
             {| NodeFrom := slice_From n; NodeTo := slice_To n; History := S n |}
        :: allocated cfg (3 + n)%nat rest
  end.

Fixpoint entries (n : loc) (k : nat) : list loc :=
  match k with
  | O => []
  | S k => (2 + n)%nat :: entries (3 + n)%nat k
  end.

Fixpoint entries_refs (n : loc) (k : nat) : list loc :=
  match k with
  | O => []
  | S k => [(2 + n)%nat; S n; n] ++ entries_refs (3 + n)%nat k
  end.

(** The store after the assignments to the loop variable. *)
Fixpoint assigned (cfg : Config) (p : loc)
    (xs : list (routing.MissionControlPairSnapshot (Vertex cfg) (Time cfg)))
    (h : store cfg) : store cfg :=
  match xs with
  | [] => h
  | x :: rest => assigned cfg p rest (<[p := obj_snapshot x]> h)
  end.

(** ** The payment lifecycle controller

    [Router.SendPaymentAsync], [Router.SendToRoute] and
    [Tower.SubscribePayment] are not part of the server file.  This section
    gives them the behaviour the specification of the payment lifecycle
    controller prescribes, over a [base] configuration that supplies
    everything else. *)
Section lifecycle.

Context (base : Config) `{Countable (Hash base)}.

(** The record a fresh submission persists for a hash, and the texts of
    the [channeldb] errors. *)
Context (InitPayment : Hash base -> MPPayment base).
Context (detail : er.ErrorCode -> string).

(** Modelled from the spec: the controller's state, "Payment: identified
    by PaymentHash; aggregates the ordered history of PaymentAttempts and a
    current Status": the stored payment of each initiated hash, the state
    transitions each payment will still go through, and the state of the
    remaining collaborators. *)
Record Controller : Type := mkController {
  payments : gmap (Hash base) (MPPayment base);
  upcoming : Hash base -> list (MPPayment base);
  others : backend base
}.

(** Modelled from the spec: "States: Created -> InFlight -> {Succeeded,
    Failed}", the last two being terminal. *)
Definition terminal (st : PaymentStatus) : bool :=
  match st with
  | StatusInFlight => false
  | StatusSucceeded | StatusFailed => true
  end.

(** Modelled from the spec: resubmitting a hash that already has a payment
    "is rejected with a distinct error ([AlreadyPaid] / [PaymentInFlight]
    depending on the terminal or concurrent state)". *)
Definition duplicate_error (p : MPPayment base) : er.R :=
  if terminal (Status base p)
  then {| er.code := Some er.ErrAlreadyPaid;
          er.String := detail er.ErrAlreadyPaid |}
  else {| er.code := Some er.ErrPaymentInFlight;
          er.String := detail er.ErrPaymentInFlight |}.

(** Modelled from the spec: [SendPaymentAsync] "validates the request is
    not a duplicate of an in-flight or completed PaymentHash, persists
    Created, transitions to InFlight, and returns immediately"; the
    implementation in the routing package is not part of the server
    file. *)
Definition lifecycle_SendPaymentAsync (payment : LightningPayment base)
    (st : Controller) : Controller * option er.R :=
  let h := PaymentHash base payment in
  match payments st !! h with
  | Some p => (st, Some (duplicate_error p))
  | None =>
      ({| payments := <[h := InitPayment h]> (payments st);
          upcoming := upcoming st; others := others st |}, None)
  end.

(** Modelled from the spec: [SendToRoute] "dispatches one explicit attempt
    synchronously and returns the attempt result (possibly alongside an
    error if the attempt itself failed)", after the same duplicate check;
    the dispatch itself is the [base] router's. *)
Definition lifecycle_SendToRoute (hash : Hash base) (route : Route base)
    (st : Controller)
    : Controller * (option (HTLCAttemptInfo base) * option er.R) :=
  match payments st !! hash with
  | Some p => (st, (None, Some (duplicate_error p)))
  | None =>
      let '(o, r) := SendToRoute base hash route (others st) in
      ({| payments := <[hash := InitPayment hash]> (payments st);
          upcoming := upcoming st; others := o |}, r)
  end.

(** Modelled from the spec: the updates of a payment end with its first
    terminal one ("Terminal states are final"); the result is the updates
    up to and including it, and whether there is one. *)
Fixpoint until_terminal (l : list (MPPayment base))
    : list (MPPayment base) * bool :=
  match l with
  | [] => ([], false)
  | p :: rest =>
      if terminal (Status base p) then ([p], true)
      else let '(l, c) := until_terminal rest in (p :: l, c)
  end.

(** Modelled from the spec: [TrackPayment] "attaches a live subscriber to
    the payment's update stream; the first delivered item is always the
    current state (even if terminal)", it "fails with NotFound if the
    PaymentHash was never initiated", and "the stream closes (no error)
    when no more updates will ever be produced (i.e., payment reached a
    terminal state and that update was delivered)"; the control tower is
    not part of the server file. *)
Definition lifecycle_SubscribePayment (hash : Hash base) (st : Controller)
    : er.R + ControlTowerSubscriber (MPPayment base) :=
  match payments st !! hash with
  | None =>
      inl {| er.code := Some er.ErrPaymentNotInitiated;
             er.String := detail er.ErrPaymentNotInitiated |}
  | Some p =>
      let '(l, c) := until_terminal (p :: upcoming st hash) in
      inr {| Updates := l; Updates_closed := c |}
  end.

(** The server's configuration with this controller behind it. *)
Definition lifecycle_Config : Config :=
  {| Hash := Hash base;
     Vertex := Vertex base;
     Time := Time base;
     LightningPayment := LightningPayment base;
     MPPayment := MPPayment base;
     Route := Route base;
     HTLCAttemptInfo := HTLCAttemptInfo base;
     HtlcEvent := HtlcEvent base;
     SendPaymentRequest := SendPaymentRequest base;
     rpc_Route := rpc_Route base;
     rpc_HTLCAttempt := rpc_HTLCAttempt base;
     rpc_Payment := rpc_Payment base;
     rpc_HtlcEvent := rpc_HtlcEvent base;
     backend := Controller;
     PaymentHash := PaymentHash base;
     Status := Status base;
     NoInflightUpdates := NoInflightUpdates base;
     MakeHash := MakeHash base;
     NewVertexFromBytes := NewVertexFromBytes base;
     ToSatoshis := ToSatoshis base;
     IsZero := IsZero base;
     Unix := Unix base;
     extractIntentFromSendRequest := extractIntentFromSendRequest base;
     SendPaymentAsync := lifecycle_SendPaymentAsync;
     SendToRoute := lifecycle_SendToRoute;
     Router_BuildRoute := λ amt hops oc d st,
       Router_BuildRoute base amt hops oc d (others st);
     SubscribePayment := lifecycle_SubscribePayment;
     Backend_SubscribeHtlcEvents := λ st,
       Backend_SubscribeHtlcEvents base (others st);
     GetHistorySnapshot := λ st, GetHistorySnapshot base (others st);
     UnmarshalRoute := UnmarshalRoute base;
     MarshalRoute := MarshalRoute base;
     MarshalHTLCAttempt := MarshalHTLCAttempt base;
     MarshalPayment := MarshalPayment base;
     rpcHtlcEvent := rpcHtlcEvent base |}.

(** Submissions reaching the controller, and the hashes they name. *)
Inductive submission : Type :=
| submit_payment (payment : LightningPayment base)
| submit_route (hash : Hash base) (route : Route base).

Definition submission_hash (c : submission) : Hash base :=
  match c with
  | submit_payment payment => PaymentHash base payment
  | submit_route hash _ => hash
  end.

Definition submit (st : Controller) (c : submission) : Controller :=
  match c with
  | submit_payment payment => (lifecycle_SendPaymentAsync payment st).1
  | submit_route hash route => (lifecycle_SendToRoute hash route st).1
  end.

(** A controller that has seen no payment yet. *)
Definition fresh_controller (future : Hash base -> list (MPPayment base))
    (o : backend base) : Controller :=
  {| payments := ∅; upcoming := future; others := o |}.

End lifecycle.

Arguments payments {base _ _} _.
Arguments upcoming {base _ _} _.
Arguments others {base _ _} _.
Arguments mkController {base _ _} _ _ _.

(** ** A small concrete configuration

    Hashes are numbers, a payment is its status, marshalling is the
    identity, the router accepts every submission and reports both an
    attempt and an error for every explicit route, and the only backend
    state is the mission-control snapshot.  The examples below run the
    handlers on it. *)
Module sample.

Definition number_of_bytes (b : bytes) : N :=
  foldl (λ acc x, (acc * 256 + Byte.to_N x)%N) 0%N b.

Definition cfg : Config :=
  {| Hash := N;
     Vertex := bytes;
     Time := Z;
     LightningPayment := N;
     MPPayment := PaymentStatus;
     Route := list N;
     HTLCAttemptInfo := N;
     HtlcEvent := N;
     SendPaymentRequest := N * bool;
     rpc_Route := list N;
     rpc_HTLCAttempt := N;
     rpc_Payment := PaymentStatus;
     rpc_HtlcEvent := N;
     backend := list (routing.MissionControlPairSnapshot bytes Z);
     PaymentHash := λ payment, payment;
     Status := λ p, p;
     NoInflightUpdates := snd;
     MakeHash := λ b,
       if decide (length b = 32%nat) then inr (number_of_bytes b)
       else inl (er_New "invalid hash length");
     NewVertexFromBytes := λ b,
       if decide (length b = 33%nat) then inr b
       else inl (er_New "invalid vertex length");
     ToSatoshis := λ m, m / 1000;
     IsZero := λ t, bool_decide (t = 0);
     Unix := λ t, t;
     extractIntentFromSendRequest := λ req, inr req.1;
     SendPaymentAsync := λ _ b, (b, None);
     SendToRoute := λ hash _ b,
       (b, (Some hash, Some (er_New "htlc failed downstream")));
     Router_BuildRoute := λ _ _ _ _ _, inr [];
     SubscribePayment := λ _ _,
       inr {| Updates := [StatusSucceeded]; Updates_closed := true |};
     Backend_SubscribeHtlcEvents := λ _,
       inr {| htlc_Updates := []; htlc_Quit := false |};
     GetHistorySnapshot := λ b, b;
     UnmarshalRoute := inr;
     MarshalRoute := inr;
     MarshalHTLCAttempt := inr;
     MarshalPayment := inr;
     rpcHtlcEvent := inr |}.

Definition detail (c : er.ErrorCode) : string :=
  match c with
  | er.ErrPaymentInFlight => "payment is in transition"
  | er.ErrAlreadyPaid => "invoice is already paid"
  | er.ErrPaymentNotInitiated => "payment isn't initiated"
  | c => er.routerrpc_detail c
  end.

(** The same configuration with the lifecycle controller behind it. *)
Definition tracked : Config :=
  lifecycle_Config cfg (λ _, StatusInFlight) detail.

(** A controller holding payment 7 in flight, about to succeed, and
    payment 8 already succeeded. *)
Definition controller : backend tracked :=
  mkController (base := cfg)
    (<[7%N := StatusInFlight]> (<[8%N := StatusSucceeded]> ∅))
    (λ h, if decide (h = 7%N) then [StatusSucceeded] else [])
    [].

Definition stream {M} : ServerStream M :=
  {| sent := []; Context_Err := None; Send_fault := None |}.

(** A request to send along the empty route for the hash of 32 zero
    bytes. *)
Definition route_request : SendToRouteRequest cfg :=
  mkSendToRouteRequest (cfg := cfg) (replicate 32 Byte.x00) (Some []).

End sample.

(** ** [readCookieFile] (package [rpcclient]) *)

(** [strings.SplitN(s, sep, 2)] for a one-character separator: the text
    before the first separator and the unsplit remainder, or [s] alone
    when it holds no separator. *)
Fixpoint cut_at (sep : Ascii.ascii) (s : string) : option (string * string) :=
  match s with
  | EmptyString => None
  | String c rest =>
      if Ascii.eqb c sep then Some (EmptyString, rest)
      else
        match cut_at sep rest with
        | Some (before, after) => Some (String c before, after)
        | None => None
        end
  end.

Definition SplitN_2 (s : string) (sep : Ascii.ascii) : list string :=
  match cut_at sep s with
  | Some (before, after) => [before; after]
  | None => [s]
  end.

(** The character [':'], code 58. *)
Definition colon : Ascii.ascii :=
  Ascii.Ascii false true false true true true false false.

(** What the operating system and the scanner hand to the function: the
    error of [os.Open], the error of [scanner.Err()] after the first
    [Scan], and [scanner.Text()], the first line of the file. *)
Record cookie_file : Set := mkCookieFile {
  Open_err : option string;
  Scanner_Err : option string;
  Scanner_Text : string
}.

(** [readCookieFile].  The two early [return]s leave the named result
    [err] at nil.  In the malformed branch [errr] is nil, so the error is
    [er.E(nil)], on which [AddMessage] is then called: a nil [er.R] there
    is a nil dereference.  [er_E] and [AddMessage] are the [er]
    package's. *)
Definition readCookieFile (er_E : option string -> option er.R)
    (AddMessage : er.R -> string -> er.R) (f : cookie_file)
    : exec (string * string * option er.R) :=
  match Open_err f with
  | Some _ => Ret (EmptyString, EmptyString, None)
  | None =>
      match Scanner_Err f with
      | Some _ => Ret (EmptyString, EmptyString, None)
      | None =>
          let s := Scanner_Text f in
          let parts := SplitN_2 s colon in
          if negb (bool_decide (length parts = 2%nat)) then
            match er_E None with
            | None => Panic "invalid memory address or nil pointer dereference"
            | Some err =>
                Ret (EmptyString, EmptyString,
                     Some (AddMessage err "Corrupt or malformed pktcookie file"))
            end
          else
            Ret (default EmptyString (parts !! 0%nat),
                 default EmptyString (parts !! 1%nat), None)
      end
  end.

(** ** Macaroon permissions and [New] *)

Record Op : Set := mkOp { Entity : string; Action : string }.

#[global] Instance Op_eq_dec : EqDecision Op.
Proof. solve_decision. Defined.

Definition macaroonOps : list Op :=
  [ {| Entity := "offchain"; Action := "read" |};
    {| Entity := "offchain"; Action := "write" |} ].

(** [macPermissions], a Go map, as the list of its entries. *)
Definition macPermissions : list (string * list Op) :=
  [ ("/routerrpc.Router/SendPaymentV2",
     [ {| Entity := "offchain"; Action := "write" |} ]);
    ("/routerrpc.Router/SendToRouteV2",
     [ {| Entity := "offchain"; Action := "write" |} ]);
    ("/routerrpc.Router/SendToRoute",
     [ {| Entity := "offchain"; Action := "write" |} ]);
    ("/routerrpc.Router/TrackPaymentV2",
     [ {| Entity := "offchain"; Action := "read" |} ]);
    ("/routerrpc.Router/EstimateRouteFee",
     [ {| Entity := "offchain"; Action := "read" |} ]);
    ("/routerrpc.Router/QueryMissionControl",
     [ {| Entity := "offchain"; Action := "read" |} ]);
    ("/routerrpc.Router/QueryProbability",
     [ {| Entity := "offchain"; Action := "read" |} ]);
    ("/routerrpc.Router/ResetMissionControl",
     [ {| Entity := "offchain"; Action := "write" |} ]);
    ("/routerrpc.Router/BuildRoute",
     [ {| Entity := "offchain"; Action := "read" |} ]);
    ("/routerrpc.Router/SubscribeHtlcEvents",
     [ {| Entity := "offchain"; Action := "read" |} ]);
    ("/routerrpc.Router/SendPayment",
     [ {| Entity := "offchain"; Action := "write" |} ]);
    ("/routerrpc.Router/TrackPayment",
     [ {| Entity := "offchain"; Action := "read" |} ]);
    ("/routerrpc.Router/HtlcInterceptor",
     [ {| Entity := "offchain"; Action := "write" |} ]) ].

Definition DefaultRouterMacFilename : string := "router.macaroon".

(** [cfg.MacService]: its [StatelessInit] flag and [NewMacaroon] for the
    default root key, on the requested operations. *)
Record MacaroonService (Macaroon : Type) : Type := mkMacaroonService {
  StatelessInit : bool;
  NewMacaroon : list Op -> er.R + Macaroon
}.
Arguments mkMacaroonService {Macaroon} _ _.
Arguments StatelessInit {Macaroon} _.
Arguments NewMacaroon {Macaroon} _ _.

(** The fields of the server's [Config] that [New] reads and writes. *)
Record MacConfig (Macaroon : Type) : Type := mkMacConfig {
  RouterMacPath : string;
  NetworkDir : string;
  MacService : option (MacaroonService Macaroon)
}.
Arguments mkMacConfig {Macaroon} _ _ _.
Arguments RouterMacPath {Macaroon} _.
Arguments NetworkDir {Macaroon} _.
Arguments MacService {Macaroon} _.

(** The file system and library calls [New] goes through:
    [filepath.Join], [lnrpc.FileExists], [ioutil.WriteFile] (mode 0644),
    [os.Remove] (its error is dropped), the macaroon's [MarshalBinary] and
    [er.E]. *)
Record MacFiles (FS Macaroon : Type) : Type := mkMacFiles {
  Join : string -> string -> string;
  FileExists : string -> FS -> bool;
  WriteFile : string -> bytes -> FS -> FS * option string;
  Remove : string -> FS -> FS;
  MarshalBinary : Macaroon -> string + bytes;
  er_E : option string -> option er.R
}.
Arguments mkMacFiles {FS Macaroon} _ _ _ _ _ _.
Arguments Join {FS Macaroon} _ _ _.
Arguments FileExists {FS Macaroon} _ _ _.
Arguments WriteFile {FS Macaroon} _ _ _ _.
Arguments Remove {FS Macaroon} _ _ _.
Arguments MarshalBinary {FS Macaroon} _ _.
Arguments er_E {FS Macaroon} _ _.

(** The path [New] settles on and stores back into [cfg]. *)
Definition resolve_RouterMacPath {FS Macaroon} (io : MacFiles FS Macaroon)
    (cfg : MacConfig Macaroon) : MacConfig Macaroon :=
  if bool_decide (RouterMacPath cfg = EmptyString)
  then {| RouterMacPath := Join io (NetworkDir cfg) DefaultRouterMacFilename;
          NetworkDir := NetworkDir cfg; MacService := MacService cfg |}
  else cfg.

(** What [New] returns: the server, the permissions and the error. *)
Definition New_result : Type :=
  option Server * option (list (string * list Op)) * option er.R.

(** [New], on the configuration (which it updates in place) and the file
    system; the server it builds is the value [New] above. *)
Definition New_server {FS Macaroon} (io : MacFiles FS Macaroon)
    (cfg : MacConfig Macaroon) (fs : FS)
    : MacConfig Macaroon * FS * New_result :=
  let cfg := resolve_RouterMacPath io cfg in
  let macFilePath := RouterMacPath cfg in
  let built : New_result := (Some New, Some macPermissions, None) in
  match MacService cfg with
  | Some svc =>
      if negb (StatelessInit svc) && negb (FileExists io macFilePath fs) then
        match NewMacaroon svc macaroonOps with
        | inl err => (cfg, fs, (None, None, Some err))
        | inr routerMac =>
            match MarshalBinary io routerMac with
            | inl errr => (cfg, fs, (None, None, er_E io (Some errr)))
            | inr routerMacBytes =>
                match WriteFile io macFilePath routerMacBytes fs with
                | (fs, Some errr) =>
                    (cfg, Remove io macFilePath fs,
                     (None, None, er_E io (Some errr)))
                | (fs, None) => (cfg, fs, built)
                end
            end
        end
      else (cfg, fs, built)
  | None => (cfg, fs, built)
  end.

(** ** Channel backups (package [chanbackup]) *)

(** [LiveChannelSource], with the fields of [channeldb.OpenChannel] the
    functions read. *)
Record LiveChannelSource (OpenChannel OutPoint PublicKey Addr : Type)
    : Type := mkLiveChannelSource {
  FetchAllChannels : er.R + list OpenChannel;
  FetchChannel : OutPoint -> er.R + OpenChannel;
  AddrsForNode : PublicKey -> er.R + list Addr
}.
Arguments mkLiveChannelSource {OpenChannel OutPoint PublicKey Addr} _ _ _.
Arguments FetchAllChannels {OpenChannel OutPoint PublicKey Addr} _.
Arguments FetchChannel {OpenChannel OutPoint PublicKey Addr} _ _.
Arguments AddrsForNode {OpenChannel OutPoint PublicKey Addr} _ _.

Section chanbackup.

Context {OpenChannel OutPoint PublicKey Addr Single : Type}.
Context (IdentityPub : OpenChannel -> PublicKey).
Context (NewSingle : OpenChannel -> list Addr -> Single).
(** The text [%v] gives for an error inside [er.Errorf]. *)
Context (Sprint : er.R -> string).

Local Abbreviation Source :=
  (LiveChannelSource OpenChannel OutPoint PublicKey Addr).

(** [assembleChanBackup]. *)
Definition assembleChanBackup (chanSource : Source) (openChan : OpenChannel)
    : er.R + Single :=
  match AddrsForNode chanSource (IdentityPub openChan) with
  | inl err => inl err
  | inr nodeAddrs => inr (NewSingle openChan nodeAddrs)
  end.

(** [FetchBackupForChan]. *)
Definition FetchBackupForChan (chanPoint : OutPoint) (chanSource : Source)
    : er.R + Single :=
  match FetchChannel chanSource chanPoint with
  | inl _ => inl (er_New "unable to find target channel")
  | inr targetChan =>
      match assembleChanBackup chanSource targetChan with
      | inl err =>
          inl (er_New ("unable to create chan backup: " +:+ Sprint err))
      | inr staticChanBackup => inr staticChanBackup
      end
  end.

(** The loop of [FetchStaticChanBackups]; [staticChanBackups] is the
    slice built so far. *)
Fixpoint FetchStaticChanBackups_loop (chanSource : Source)
    (openChans : list OpenChannel) (staticChanBackups : list Single)
    : er.R + list Single :=
  match openChans with
  | [] => inr staticChanBackups
  | openChan :: rest =>
      match assembleChanBackup chanSource openChan with
      | inl err => inl err
      | inr chanBackup =>
          FetchStaticChanBackups_loop chanSource rest
            (staticChanBackups ++ [chanBackup])
      end
  end.

(** [FetchStaticChanBackups]. *)
Definition FetchStaticChanBackups (chanSource : Source)
    : er.R + list Single :=
  match FetchAllChannels chanSource with
  | inl err => inl err
  | inr openChans => FetchStaticChanBackups_loop chanSource openChans []
  end.

End chanbackup.

(** ** Small instances for the examples of [New] and of the backups *)
Module sample_files.

(** An in-memory file system on which every write succeeds. *)
Definition io : MacFiles (gmap string bytes) bytes :=
  mkMacFiles
    (λ dir file, dir +:+ "/" +:+ file)
    (λ path fs, bool_decide (is_Some (fs !! path)))
    (λ path data fs, (<[path := data]> fs, None))
    (λ path fs, delete path fs)
    inr
    (fmap er_New).

Definition service : MacaroonService bytes :=
  mkMacaroonService false (λ _, inr [Byte.x01]).

Definition cfg : MacConfig bytes :=
  mkMacConfig EmptyString "/data/pkt" (Some service).

(** Two open channels, keyed by a number, with peers 10 and 20. *)
Definition source : LiveChannelSource (nat * nat) nat nat string :=
  mkLiveChannelSource
    (inr [(1%nat, 10%nat); (2%nat, 20%nat)])
    (λ chanPoint,
       if decide (chanPoint = 1%nat) then inr (1%nat, 10%nat)
       else if decide (chanPoint = 2%nat) then inr (2%nat, 20%nat)
       else inl (er_New "channel not found"))
    (λ nodePub, inr ["203.0.113.7:9735"]).

End sample_files.

(** * Properties *)

(** ** Machine integers *)

Lemma wrap32_small (z : Z) : is_int32 z -> wrap32 z = z.
Proof.
  unfold is_int32, wrap32. intros Hz.
  rewrite Z.mod_small by lia. lia.
Qed.

Lemma wrap32_succ (z : Z) : wrap32 (wrap32 z + 1) = wrap32 (z + 1).
Proof.
  unfold wrap32.
  replace ((z + 2 ^ 31) mod 2 ^ 32 - 2 ^ 31 + 1 + 2 ^ 31)
    with ((z + 2 ^ 31) mod 2 ^ 32 + 1) by lia.
  rewrite Zplus_mod_idemp_l. f_equal. f_equal. lia.
Qed.

(** Counting up from 1, the counter does not read 1 again before the
    [2 ^ 32]-th increment. *)
Lemma wrap32_not_one (n : Z) : 1 <= n < 2 ^ 32 -> wrap32 (n + 1) <> 1.
Proof.
  unfold wrap32. intros Hn.
  destruct (Z_lt_ge_dec (n + 1) (2 ^ 31)) as [Hlt | Hge].
  - rewrite Z.mod_small by lia. lia.
  - replace (n + 1 + 2 ^ 31) with ((n + 1 - 2 ^ 31) + 1 * 2 ^ 32) by lia.
    rewrite Z_mod_plus_full, Z.mod_small by lia. lia.
Qed.

Lemma wrapU64_nonzero (z : Z) : is_int64 z -> z <> 0 -> wrapU64 z <> 0.
Proof.
  unfold is_int64, wrapU64. intros Hz Hnz Hmod.
  destruct (Z_lt_ge_dec z 0) as [Hneg | Hpos].
  - replace z with ((z + 2 ^ 64) + (-1) * 2 ^ 64) in Hmod by lia.
    rewrite Z_mod_plus_full, Z.mod_small in Hmod by lia. lia.
  - rewrite Z.mod_small in Hmod by lia. lia.
Qed.

(** ** [Start] and [Stop] *)

(** [Start] touches nothing but its own counter, in every call. *)
Lemma Start_only_counts (s : Server) :
  Start s = (set_started (wrap32 (started s + 1)) s, None).
Proof. unfold Start. cbn. by case_match. Qed.

(** The first [Stop] of a server closes [quit]. *)
Lemma Stop_first (s : Server) :
  shutdown s = 0 -> quit s = chan_open ->
  Stop s = Ret (set_quit chan_closed (set_shutdown 1 s), None).
Proof.
  intros Hs Hq. unfold Stop. cbn. rewrite Hs. cbn. by rewrite Hq.
Qed.

(** A [Stop] that does not read 1 from the counter leaves [quit] alone. *)
Lemma Stop_again (s : Server) :
  wrap32 (shutdown s + 1) <> 1 ->
  Stop s = Ret (set_shutdown (wrap32 (shutdown s + 1)) s, None).
Proof.
  intros Hne. unfold Stop. cbn. by rewrite bool_decide_eq_false_2.
Qed.

Example Stop_twice :
  exec_bind (Stop New) (fun r => Stop r.1)
  = Ret ({| started := 0; shutdown := 2; forwardInterceptorActive := 0;
            quit := chan_closed |}, None).
Proof. reflexivity. Qed.

(** The state after the wrap-around: the counter back at 0 next to a
    closed [quit]. *)
Example Stop_at_the_edge :
  Stop {| started := 1; shutdown := 0; forwardInterceptorActive := 0;
          quit := chan_closed |}
  = Panic "close of closed channel".
Proof. reflexivity. Qed.

(** The server after [n + 1] calls of [Stop], as long as the counter has
    not wrapped around. *)
Lemma calls_Stop_New (n : N) :
  (n < 2 ^ 32)%N ->
  calls Stop (N.succ n) New =
    Ret {| started := 0; shutdown := wrap32 (Z.of_N n + 1);
           forwardInterceptorActive := 0; quit := chan_closed |}.
Proof.
  induction n as [| n IH] using N.peano_ind; intros Hn.
  - reflexivity.
  - unfold calls in *. rewrite N.iter_succ, IH by lia. cbn [exec_bind].
    replace (Z.of_N (N.succ n) + 1) with (Z.of_N n + 1 + 1) by lia.
    rewrite Stop_again; cbn [shutdown]; rewrite wrap32_succ.
    + reflexivity.
    + replace (Z.of_N n + 1 + 1) with (Z.of_N (N.succ n) + 1) by lia.
      apply wrap32_not_one. lia.
Qed.

(** Below the wrap-around, every [Stop] after the first returns nil and
    leaves [quit] closed: no second [close]. *)
Lemma Stop_idempotent_below_wraparound (n : N) :
  (0 < n < 2 ^ 32)%N ->
  exists s,
    calls Stop n New = Ret s /\ quit s = chan_closed /\
    exists s', Stop s = Ret (s', None) /\ quit s' = chan_closed /\
      started s' = started s /\
      forwardInterceptorActive s' = forwardInterceptorActive s.
Proof.
  intros Hn. replace n with (N.succ (N.pred n)) by lia.
  rewrite calls_Stop_New by lia. eexists. split; [done |]. split; [done |].
  rewrite Stop_again; cbn [shutdown].
  - eexists. by repeat split.
  - rewrite wrap32_succ.
    replace (Z.of_N (N.pred n) + 1 + 1) with (Z.of_N n + 1) by lia.
    apply wrap32_not_one. lia.
Qed.

(** C9, at the input where it fails: after [2 ^ 32] calls of [Stop] on a
    new server the [shutdown] counter has wrapped around to 0 while [quit]
    is closed, so the next call reads 1 from the counter again and closes
    the closed channel, which panics.  Only below that many calls is
    [quit] closed once ([Stop_idempotent_below_wraparound]); [Start] has
    no effect besides its counter in any call ([Start_only_counts]). *)
Theorem Stop_closes_quit_again_after_wraparound :
  exists s,
    calls Stop (2 ^ 32) New = Ret s /\
    shutdown s = 0 /\ quit s = chan_closed /\
    Stop s = Panic "close of closed channel".
Proof.
  replace (2 ^ 32)%N with (N.succ (2 ^ 32 - 1)) by reflexivity.
  rewrite calls_Stop_New by reflexivity.
  eexists. split; [reflexivity |]. by repeat split.
Qed.

(** ** [HtlcInterceptor]: one session at a time *)

(** The guard is one compare-and-swap of the flag from 0 to 1; nothing
    else of the server changes. *)
Lemma HtlcInterceptor_enter_cas (s : Server) :
  HtlcInterceptor_enter s =
    let '(cell, swapped) :=
      atomic.CompareAndSwapInt32 (forwardInterceptorActive s) 0 1 in
    (set_forwardInterceptorActive cell s,
     if swapped then None
     else Some (native (er.Default er.ErrInterceptorAlreadyExists))).
Proof.
  unfold HtlcInterceptor_enter, atomic.CompareAndSwapInt32.
  destruct s as [st sh f q]. cbn. by case_decide.
Qed.

Lemma sessions_inv_init (s : Server) :
  forwardInterceptorActive s = 0 -> sessions_inv (sessions_init s).
Proof. intros Hs. by left. Qed.

Lemma sessions_inv_step (w : sessions) (c : icall) :
  sessions_inv w -> sessions_inv (sessions_step w c).
Proof.
  intros [[Hf Hr] | [Hf [id Hr]]]; destruct c as [id' | id' r]; cbn.
  - unfold HtlcInterceptor_enter. rewrite Hf. cbn. right. cbn.
    rewrite Hr. eauto.
  - rewrite Hr. case_decide as Hin; [by apply elem_of_nil in Hin | by left].
  - unfold HtlcInterceptor_enter. rewrite Hf. cbn. right. eauto.
  - rewrite Hr. case_decide as Hin.
    + apply list_elem_of_singleton in Hin as ->.
      unfold HtlcInterceptor_exit. rewrite Hf. cbn. left. split; [done |].
      by rewrite decide_False by naive_solver.
    + right. eauto.
Qed.

Lemma sessions_inv_run (t : list icall) (w : sessions) :
  sessions_inv w -> sessions_inv (sessions_run w t).
Proof.
  revert w. induction t as [| c t IH]; intros w Hw; [done |].
  cbn. apply IH. by apply sessions_inv_step.
Qed.

(** While a session runs, a further call is answered with
    [ErrInterceptorAlreadyExists] and changes nothing else. *)
Lemma sessions_reject (w : sessions) (id : nat) :
  sessions_inv w -> running w <> [] ->
  sessions_step w (Connect id) =
    {| srv := srv w; running := running w;
       replies :=
         (id, Some (native (er.Default er.ErrInterceptorAlreadyExists)))
           :: replies w |}.
Proof.
  intros [[_ Hr] | [Hf _]] Hne; [done |].
  cbn. unfold HtlcInterceptor_enter. by rewrite Hf.
Qed.

(** However the running session ends, its end clears the flag. *)
Lemma sessions_release (w : sessions) (id : nat) (r : option er.R) :
  sessions_inv w -> id ∈ running w ->
  sessions_step w (Finish id r) =
    {| srv := set_forwardInterceptorActive 0 (srv w); running := [];
       replies := (id, er_Native r) :: replies w |}.
Proof.
  intros [[_ Hr] | [Hf [id' Hr]]] Hin.
  - rewrite Hr in Hin. by apply elem_of_nil in Hin.
  - cbn. rewrite decide_True by done.
    rewrite Hr in Hin |- *. apply list_elem_of_singleton in Hin as ->.
    unfold HtlcInterceptor_exit. rewrite Hf. cbn.
    by rewrite decide_False by naive_solver.
Qed.

(** With the flag clear, a call is admitted. *)
Lemma sessions_admit (w : sessions) (id : nat) :
  forwardInterceptorActive (srv w) = 0 ->
  sessions_step w (Connect id) =
    {| srv := set_forwardInterceptorActive 1 (srv w);
       running := id :: running w; replies := replies w |}.
Proof. intros Hf. cbn. unfold HtlcInterceptor_enter. by rewrite Hf. Qed.

(** C1: over any interleaving of interceptor calls and session ends on a
    server whose flag starts clear, at most one session runs at a time; a
    call made while one runs gets [ErrInterceptorAlreadyExists] and leaves
    the server and the running session as they are; the guard is one
    compare-and-swap of the flag; and when the running session ends, with
    whatever result, the flag is cleared and the next call is admitted. *)
Theorem HtlcInterceptor_single_session (s : Server) (t : list icall) :
  forwardInterceptorActive s = 0 ->
  let w := sessions_run (sessions_init s) t in
  (length (running w) <= 1)%nat
  /\ (forall id, running w <> [] ->
        sessions_step w (Connect id) =
          {| srv := srv w; running := running w;
             replies :=
               (id, Some (native (er.Default er.ErrInterceptorAlreadyExists)))
                 :: replies w |})
  /\ (forall s',
        (HtlcInterceptor_enter s').1 =
          set_forwardInterceptorActive
            (atomic.CompareAndSwapInt32 (forwardInterceptorActive s') 0 1).1 s')
  /\ (forall id r, id ∈ running w ->
        let w' := sessions_step w (Finish id r) in
        running w' = [] /\ forwardInterceptorActive (srv w') = 0
        /\ replies w' = (id, er_Native r) :: replies w
        /\ forall id',
             let w'' := sessions_step w' (Connect id') in
             running w'' = [id'] /\ replies w'' = replies w').
Proof.
  intros Hs w.
  assert (Hw : sessions_inv w)
    by (apply sessions_inv_run; by apply sessions_inv_init).
  split; [| split; [| split]].
  - destruct Hw as [[_ ->] | [_ [id ->]]]; cbn; lia.
  - intros id Hne. by apply sessions_reject.
  - intros s'. rewrite HtlcInterceptor_enter_cas.
    by destruct (atomic.CompareAndSwapInt32 _ 0 1).
  - intros id r Hin w'. subst w'. rewrite sessions_release by done. cbn.
    repeat split; try done.
Qed.

Lemma HtlcInterceptor_single_session_witness :
  let w := sessions_run (sessions_init New) [Connect 1%nat; Connect 2%nat] in
  running w = [1%nat]
  /\ replies w =
       [(2%nat, Some (native (er.Default er.ErrInterceptorAlreadyExists)))]
  /\ running (sessions_step (sessions_step w (Finish 1%nat None)) (Connect 2%nat))
     = [2%nat].
Proof.
  destruct (HtlcInterceptor_single_session New
              [Connect 1%nat; Connect 2%nat] eq_refl) as (_ & _ & _ & H).
  split; [reflexivity |]. split; [reflexivity |].
  destruct (H 1%nat None (list_elem_of_here _ _)) as (_ & _ & _ & H').
  apply (H' 2%nat).
Defined.

(** The handler run start to end on a server without a session leaves no
    session behind, whatever [run] returns. *)
Lemma HtlcInterceptor_sequential
    (run : Server -> Server * option er.R) (s : Server) :
  forwardInterceptorActive s = 0 ->
  (forall s0, forwardInterceptorActive (run s0).1 = forwardInterceptorActive s0) ->
  forwardInterceptorActive (HtlcInterceptor run s).1 = 0
  /\ (HtlcInterceptor run s).2 = er_Native (run (set_forwardInterceptorActive 1 s)).2.
Proof.
  intros Hs Hrun. unfold HtlcInterceptor.
  replace (HtlcInterceptor_enter s)
    with (set_forwardInterceptorActive 1 s, @None error)
    by (unfold HtlcInterceptor_enter; by rewrite Hs).
  specialize (Hrun (set_forwardInterceptorActive 1 s)).
  destruct (run _) as [s1 r]. cbn in Hrun.
  unfold HtlcInterceptor_exit. by rewrite Hrun.
Qed.

(** ** [SendToRouteV2]: the attempt wins over the error *)

Lemma SendToRouteV2_after_send (cfg : Config) (req : SendToRouteRequest cfg)
    (b b' : backend cfg) r route hash attempt err :
  route_Route req = Some r ->
  UnmarshalRoute cfg r = inr route ->
  MakeHash cfg (route_PaymentHash req) = inr hash ->
  SendToRoute cfg hash route b = (b', (attempt, err)) ->
  SendToRouteV2 cfg req b = (b', SendToRouteV2_reply cfg attempt err).
Proof.
  intros Hr Hu Hh Hs. unfold SendToRouteV2. by rewrite Hr, Hu, Hh, Hs.
Qed.

(** C3: when [SendToRoute] returns an attempt record, the reply of
    [SendToRouteV2] is what marshalling that attempt gives, whatever error
    came with it: with a marshalled attempt the reply carries it and no
    error.  The error of [SendToRoute] reaches the caller only when there
    is no attempt record, as [AlreadyExists] for the two duplicate-payment
    codes and as the native error otherwise. *)
Theorem SendToRouteV2_attempt_precedence (cfg : Config)
    (req : SendToRouteRequest cfg) (b b' : backend cfg)
    r route hash attempt err :
  route_Route req = Some r ->
  UnmarshalRoute cfg r = inr route ->
  MakeHash cfg (route_PaymentHash req) = inr hash ->
  SendToRoute cfg hash route b = (b', (attempt, err)) ->
  (forall a,
     attempt = Some a ->
     SendToRouteV2 cfg req b =
       (b', match MarshalHTLCAttempt cfg a with
            | inl e => (None, Some (native e))
            | inr rpcAttempt => (Some rpcAttempt, None)
            end))
  /\ (forall a rpcAttempt,
        attempt = Some a -> MarshalHTLCAttempt cfg a = inr rpcAttempt ->
        SendToRouteV2 cfg req b = (b', (Some rpcAttempt, None)))
  /\ (forall e,
        attempt = None -> err = Some e ->
        SendToRouteV2 cfg req b =
          (b', (None,
                Some (if er.Is er.ErrPaymentInFlight err
                         || er.Is er.ErrAlreadyPaid err
                      then status_Error codes_AlreadyExists (er.String e)
                      else native e)))).
Proof.
  intros Hr Hu Hh Hs.
  rewrite (SendToRouteV2_after_send cfg req b b' r route hash attempt err)
    by done.
  unfold SendToRouteV2_reply. repeat split.
  - intros a ->. by case_match.
  - intros a rpcAttempt -> Hm. by rewrite Hm.
  - intros e -> ->. by case_match.
Qed.

Lemma SendToRouteV2_attempt_precedence_witness :
  SendToRoute sample.cfg 0%N [] [] =
    ([], (Some 0%N, Some (er_New "htlc failed downstream")))
  /\ SendToRouteV2 sample.cfg sample.route_request [] = ([], (Some 0%N, None)).
Proof.
  split; [reflexivity |].
  refine (proj1 (proj2 (SendToRouteV2_attempt_precedence sample.cfg
                          sample.route_request [] [] [] [] 0%N (Some 0%N)
                          (Some (er_New "htlc failed downstream"))
                          eq_refl eq_refl eq_refl eq_refl))
            0%N 0%N eq_refl eq_refl).
Defined.

(** ** [BuildRoute]: zero means unset *)

(** C10: once the hop list is unmarshalled, [BuildRoute] calls the
    router's route construction with an absent amount exactly when the
    request's amount is 0 and with no fixed outgoing channel exactly when
    the request's channel id is 0; so the router is never asked for an
    explicit amount of 0 or for the channel id 0. *)
Theorem BuildRoute_zero_is_unset (cfg : Config) (req : BuildRouteRequest)
    (b : backend cfg) (hops : list (Vertex cfg)) :
  BuildRouteRequest_wf req ->
  BuildRoute_hops cfg (HopPubkeys req) = inr hops ->
  exists amt outgoingChan,
    BuildRoute cfg req b =
      match Router_BuildRoute cfg amt hops outgoingChan (FinalCltvDelta req) b with
      | inl err => (None, Some (native err))
      | inr route =>
          match MarshalRoute cfg route with
          | inl err => (None, Some (native err))
          | inr rpcRoute => (Some rpcRoute, None)
          end
      end
    /\ (AmtMsat req = 0 -> amt = None)
    /\ (AmtMsat req <> 0 -> amt = Some (wrapU64 (AmtMsat req)))
    /\ (OutgoingChanId req = 0 -> outgoingChan = None)
    /\ (OutgoingChanId req <> 0 -> outgoingChan = Some (OutgoingChanId req))
    /\ amt <> Some 0 /\ outgoingChan <> Some 0.
Proof.
  intros (Hamt & _ & _) Hhops. unfold BuildRoute. rewrite Hhops.
  eexists _, _. split; [reflexivity |].
  repeat split.
  - intros ->. done.
  - intros Hne. by rewrite bool_decide_eq_false_2.
  - intros ->. done.
  - intros Hne. by rewrite bool_decide_eq_false_2.
  - case_bool_decide as Hz; [done |]. cbn. intros [= Hw].
    by apply (wrapU64_nonzero (AmtMsat req)).
  - case_bool_decide as Hz; [done |]. cbn. by intros [= Hw].
Qed.

Lemma BuildRoute_zero_is_unset_witness :
  BuildRoute sample.cfg
    {| AmtMsat := 0; FinalCltvDelta := 40; OutgoingChanId := 0;
       HopPubkeys := [replicate 33 Byte.x02] |} [] = (Some ([] : list N), None).
Proof.
  destruct (BuildRoute_zero_is_unset sample.cfg
              {| AmtMsat := 0; FinalCltvDelta := 40; OutgoingChanId := 0;
                 HopPubkeys := [replicate 33 Byte.x02] |} []
              [replicate 33 Byte.x02])
    as (amt & oc & Heq & _).
  - unfold BuildRouteRequest_wf, is_int64, is_int32, is_uint64. cbn. lia.
  - reflexivity.
  - rewrite Heq. reflexivity.
Defined.

(** ** [select] *)

Lemma select_nil {A} (k : nat) : select k ([] : list A) = None.
Proof. unfold select. apply lookup_nil. Qed.

Lemma select_singleton {A} (k : nat) (x : A) : select k [x] = Some x.
Proof. unfold select. cbn [length]. by rewrite Nat.mod_1_r. Qed.

Lemma select_elem_of {A} (k : nat) (ready : list A) (x : A) :
  select k ready = Some x -> x ∈ ready.
Proof. unfold select. intros Hx. by eapply list_elem_of_lookup_2. Qed.

Lemma select_is_Some {A} (k : nat) (ready : list A) :
  ready <> [] -> is_Some (select k ready).
Proof.
  intros Hne. unfold select. apply lookup_lt_is_Some.
  apply Nat.mod_upper_bound. by destruct ready.
Qed.

Lemma select_None {A} (k : nat) (ready : list A) :
  select k ready = None -> ready = [].
Proof.
  intros Hsel. destruct ready as [| x ready]; [done |].
  destruct (select_is_Some k (x :: ready)) as [y Hy]; [done |]. congruence.
Qed.

(** ** [trackPayment]: the stream of updates *)

Lemma Send_no_fault {M} (m : M) (st : ServerStream M) :
  Send_fault st = None -> Send m st = (push m st, None).
Proof. intros Hf. unfold Send. by rewrite Hf. Qed.

(** Without shutdown and cancellation only the [Updates] case can be
    ready. *)
Lemma track_ready_quiet {P M} (pending : list P) (closed : bool)
    (stream : ServerStream M) :
  Context_Err stream = None ->
  track_ready pending closed chan_open stream =
    match pending with
    | item :: _ => [track_update (Some item)]
    | [] => if closed then [track_update None] else []
    end.
Proof.
  intros Hc. unfold track_ready. rewrite Hc. cbn. by rewrite app_nil_r.
Qed.

(** One received item: an in-flight update is passed over when the option
    is set, and every other item is handled as if the option were not
    set. *)
Lemma track_item_noInflightUpdates (cfg : Config) (noInflightUpdates : bool)
    (result : MPPayment cfg) stream continue :
  track_item cfg noInflightUpdates result stream continue =
    if noInflightUpdates && bool_decide (Status cfg result = StatusInFlight)
    then continue stream
    else track_item cfg false result stream continue.
Proof. unfold track_item. by destruct noInflightUpdates. Qed.

Lemma let_through_unset (cfg : Config) (pending : list (MPPayment cfg)) :
  filter (let_through cfg false) pending = pending.
Proof.
  induction pending as [| p pending IH]; [done |].
  rewrite filter_cons_True; [by rewrite IH | by intros [? _]].
Qed.

(** The loop over a whole subscription when nothing interferes: it
    delivers the updates that are let through, in order, and then returns
    nil if the channel is closed and waits otherwise. *)
Lemma trackPayment_loop_quiet (cfg : Config) (s : Server)
    (noInflightUpdates : bool) (marshal : MPPayment cfg -> rpc_Payment cfg)
    (pending : list (MPPayment cfg)) (closed : bool) :
  quit s = chan_open ->
  (forall p, p ∈ pending -> let_through cfg noInflightUpdates p ->
             MarshalPayment cfg p = inr (marshal p)) ->
  forall sched stream,
    Context_Err stream = None -> Send_fault stream = None ->
    trackPayment_loop cfg s noInflightUpdates sched pending closed stream =
      ({| sent := sent stream
                  ++ (marshal <$> filter (let_through cfg noInflightUpdates) pending);
          Context_Err := None; Send_fault := None |},
       if closed then returned None else blocked).
Proof.
  intros Hq. induction pending as [| p pending IH]; intros Hm sched stream Hc Hf.
  - cbn [trackPayment_loop]. rewrite Hq, track_ready_quiet by done.
    destruct stream as [snt c f]. cbn in Hc, Hf. subst c f.
    cbn. rewrite app_nil_r. destruct closed.
    + by rewrite select_singleton.
    + by rewrite select_nil.
  - cbn [trackPayment_loop]. rewrite Hq, track_ready_quiet by done.
    rewrite select_singleton. unfold track_item.
    destruct (decide (let_through cfg noInflightUpdates p)) as [Hp | Hp].
    + rewrite filter_cons_True by done.
      replace (noInflightUpdates && bool_decide (Status cfg p = StatusInFlight))
        with false.
      2:{ symmetry. apply andb_false_iff.
          destruct noInflightUpdates; [right | by left].
          apply bool_decide_eq_false_2. intros Hst. by apply Hp. }
      rewrite (Hm p) by (done || apply list_elem_of_here).
      rewrite Send_no_fault by done.
      rewrite IH; [| | done | done].
      * cbn. by rewrite <- app_assoc.
      * intros p' Hin. apply Hm. by apply list_elem_of_further.
    + rewrite filter_cons_False by done.
      replace (noInflightUpdates && bool_decide (Status cfg p = StatusInFlight))
        with true.
      2:{ symmetry. unfold let_through in Hp. apply dec_stable in Hp as [-> Hst].
          by rewrite bool_decide_eq_true_2. }
      apply IH; [| done | done].
      intros p' Hin. apply Hm. by apply list_elem_of_further.
Qed.

(** C5: on a subscription opened with the no-inflight-updates option, the
    loop passes over every [InFlight] update without ending the stream or
    returning an error and delivers every other update, the terminal one
    included; with the option unset it delivers every update.  Stated for
    a stream that is neither shut down, cancelled nor broken, and whose
    delivered updates marshal. *)
Theorem trackPayment_noInflightUpdates_filter (cfg : Config) (s : Server)
    (noInflightUpdates : bool) (marshal : MPPayment cfg -> rpc_Payment cfg)
    (sched : list nat) (pending : list (MPPayment cfg)) (closed : bool)
    (stream : ServerStream (rpc_Payment cfg)) :
  quit s = chan_open ->
  Context_Err stream = None -> Send_fault stream = None ->
  (forall p, p ∈ pending -> let_through cfg noInflightUpdates p ->
             MarshalPayment cfg p = inr (marshal p)) ->
  trackPayment_loop cfg s noInflightUpdates sched pending closed stream =
    ({| sent := sent stream
                ++ (marshal <$> filter (let_through cfg noInflightUpdates) pending);
        Context_Err := None; Send_fault := None |},
     if closed then returned None else blocked)
  /\ (forall p, p ∈ filter (let_through cfg noInflightUpdates) pending <->
                p ∈ pending /\
                ¬ (noInflightUpdates = true /\ Status cfg p = StatusInFlight))
  /\ (noInflightUpdates = false ->
      filter (let_through cfg noInflightUpdates) pending = pending).
Proof.
  intros Hq Hc Hf Hm. split; [| split].
  - by apply trackPayment_loop_quiet.
  - intros p. rewrite list_elem_of_filter. unfold let_through. tauto.
  - intros ->. apply let_through_unset.
Qed.

Lemma trackPayment_noInflightUpdates_filter_witness :
  trackPayment_loop sample.cfg New true []
    [StatusInFlight; StatusInFlight; StatusSucceeded] true sample.stream
  = ({| sent := [StatusSucceeded]; Context_Err := None; Send_fault := None |},
     returned None).
Proof.
  apply (trackPayment_noInflightUpdates_filter sample.cfg New true (λ p, p) []
           [StatusInFlight; StatusInFlight; StatusSucceeded] true sample.stream
           eq_refl eq_refl eq_refl).
  intros p _ _. reflexivity.
Defined.

(** ** Shutdown wakes the waiting streams *)

Lemma Send_Context_Err {M} (m : M) (st st' : ServerStream M) e :
  Send m st = (st', e) -> Context_Err st' = Context_Err st.
Proof.
  unfold Send. destruct (Send_fault st) as [[n e'] |].
  - case_decide; by intros [= <- <-].
  - by intros [= <- <-].
Qed.

(** A [trackPayment] loop that ends up waiting: the server is not shut
    down, the channel of updates is still open and the stream's context
    is not done. *)
Lemma trackPayment_loop_blocked (cfg : Config) (s : Server)
    (noInflightUpdates : bool) (closed : bool)
    (pending : list (MPPayment cfg)) :
  forall sched stream stream',
    trackPayment_loop cfg s noInflightUpdates sched pending closed stream
    = (stream', blocked) ->
    quit s = chan_open /\ closed = false /\ Context_Err stream' = None.
Proof.
  induction pending as [| p pending IH]; intros sched stream stream' Hloop.
  - cbn [trackPayment_loop] in Hloop.
    destruct (select _ _) as [c |] eqn:Hsel.
    + apply select_elem_of in Hsel. unfold track_ready in Hsel.
      destruct c as [[item |] | | e]; try done.
      exfalso. rewrite !elem_of_app in Hsel.
      destruct Hsel as [Hsel | [Hsel | Hsel]].
      * destruct closed; [| by apply elem_of_nil in Hsel].
        by apply list_elem_of_singleton in Hsel.
      * case_decide; [| by apply elem_of_nil in Hsel].
        by apply list_elem_of_singleton in Hsel.
      * destruct (Context_Err stream); [| by apply elem_of_nil in Hsel].
        by apply list_elem_of_singleton in Hsel.
    + injection Hloop as <-. apply select_None in Hsel.
      unfold track_ready in Hsel.
      apply app_eq_nil in Hsel as [H1 H2]. apply app_eq_nil in H2 as [H2 H3].
      destruct closed; [done |]. destruct (quit s); [| done].
      by destruct (Context_Err stream).
  - cbn [trackPayment_loop] in Hloop.
    destruct (select _ _) as [c |] eqn:Hsel.
    + destruct c as [[item |] | | e]; try done.
      unfold track_item in Hloop.
      destruct (noInflightUpdates && _); [by eapply IH |].
      destruct (MarshalPayment cfg item) as [err | rpcPayment]; [done |].
      destruct (Send rpcPayment stream) as [stream1 [errr |]] eqn:Hsend; [done |].
      by eapply IH.
    + by apply select_None in Hsel.
Qed.

Lemma SubscribeHtlcEvents_loop_blocked (cfg : Config) (s : Server)
    (client_quit : bool) (pending : list (HtlcEvent cfg)) :
  forall sched stream stream',
    SubscribeHtlcEvents_loop cfg s sched pending client_quit stream
    = (stream', blocked) ->
    quit s = chan_open /\ client_quit = false /\ Context_Err stream' = None.
Proof.
  induction pending as [| ev pending IH]; intros sched stream stream' Hloop.
  - cbn [SubscribeHtlcEvents_loop] in Hloop.
    destruct (select _ _) as [c |] eqn:Hsel.
    + apply select_elem_of in Hsel. unfold htlc_ready in Hsel.
      destruct c as [event | e | |]; try done.
      exfalso. rewrite !elem_of_app in Hsel.
      destruct Hsel as [Hsel | [Hsel | [Hsel | Hsel]]].
      * by apply elem_of_nil in Hsel.
      * destruct (Context_Err stream); [| by apply elem_of_nil in Hsel].
        by apply list_elem_of_singleton in Hsel.
      * destruct client_quit; [| by apply elem_of_nil in Hsel].
        by apply list_elem_of_singleton in Hsel.
      * case_decide; [| by apply elem_of_nil in Hsel].
        by apply list_elem_of_singleton in Hsel.
    + injection Hloop as <-. apply select_None in Hsel.
      unfold htlc_ready in Hsel.
      apply app_eq_nil in Hsel as [_ H2]. apply app_eq_nil in H2 as [H2 H3].
      apply app_eq_nil in H3 as [H3 H4].
      destruct (Context_Err stream); [done |].
      destruct client_quit; [done |].
      by destruct (quit s).
  - cbn [SubscribeHtlcEvents_loop] in Hloop.
    destruct (select _ _) as [c |] eqn:Hsel.
    + destruct c as [event | e | |]; try done.
      destruct (rpcHtlcEvent cfg event) as [err | rpcEvent]; [done |].
      destruct (Send rpcEvent stream) as [stream1 [errr |]] eqn:Hsend; [done |].
      by eapply IH.
    + by apply select_None in Hsel.
Qed.

(** C7: the first [Stop] of a server closes [quit], and with [quit]
    closed every [trackPayment] loop and every [SubscribeHtlcEvents] loop
    that was waiting in its [select] (no update pending, context not
    done) finds the shutdown case, and no other, ready: it returns
    [errServerShuttingDown] in its next step, whatever the runtime
    draws, having sent nothing further. *)
Theorem Stop_wakes_blocked_streams (cfg : Config) (s : Server) :
  shutdown s = 0 -> quit s = chan_open ->
  exists s',
    Stop s = Ret (s', None) /\ quit s' = chan_closed
    /\ (forall noInflightUpdates sched pending closed stream stream' sched',
          trackPayment_loop cfg s noInflightUpdates sched pending closed stream
          = (stream', blocked) ->
          track_ready ([] : list (MPPayment cfg)) closed (quit s') stream'
          = [track_quit]
          /\ trackPayment_loop cfg s' noInflightUpdates sched' [] closed stream'
             = (stream',
                returned (Some (native (er.Default er.errServerShuttingDown)))))
    /\ (forall sched pending client_quit stream stream' sched',
          SubscribeHtlcEvents_loop cfg s sched pending client_quit stream
          = (stream', blocked) ->
          htlc_ready ([] : list (HtlcEvent cfg)) client_quit (quit s') stream'
          = [htlc_quit]
          /\ SubscribeHtlcEvents_loop cfg s' sched' [] client_quit stream'
             = (stream',
                returned (Some (native (er.Default er.errServerShuttingDown))))).
Proof.
  intros Hs Hq. eexists. split; [by apply Stop_first |]. split; [done |].
  split.
  - intros noInflightUpdates sched pending closed stream stream' sched' Hb.
    apply trackPayment_loop_blocked in Hb as (_ & -> & Hc).
    assert (Hr : track_ready ([] : list (MPPayment cfg)) false chan_closed stream'
                 = [track_quit])
      by (unfold track_ready; by rewrite Hc).
    split; [done |].
    cbn [trackPayment_loop set_quit quit]. by rewrite Hr, select_singleton.
  - intros sched pending client_quit stream stream' sched' Hb.
    apply SubscribeHtlcEvents_loop_blocked in Hb as (_ & -> & Hc).
    assert (Hr : htlc_ready ([] : list (HtlcEvent cfg)) false chan_closed stream'
                 = [htlc_quit])
      by (unfold htlc_ready; by rewrite Hc).
    split; [done |].
    cbn [SubscribeHtlcEvents_loop set_quit quit]. by rewrite Hr, select_singleton.
Qed.

Lemma Stop_wakes_blocked_streams_witness :
  trackPayment_loop sample.cfg New false [] [StatusInFlight] false sample.stream
  = (push StatusInFlight sample.stream, blocked)
  /\ exists s',
       Stop New = Ret (s', None)
       /\ trackPayment_loop sample.cfg s' false [] [] false
            (push StatusInFlight sample.stream)
          = (push StatusInFlight sample.stream,
             returned (Some (native (er.Default er.errServerShuttingDown)))).
Proof.
  split; [reflexivity |].
  destruct (Stop_wakes_blocked_streams sample.cfg New eq_refl eq_refl)
    as (s' & HStop & _ & Htrack & _).
  exists s'. split; [exact HStop |].
  apply (Htrack false [] [StatusInFlight] false sample.stream
           (push StatusInFlight sample.stream) [] eq_refl).
Defined.

(** ** [QueryMissionControl]: one entry per pair, none shared *)

Lemma lookup_app_plus {A} (l1 l2 : list A) (i : nat) :
  (l1 ++ l2) !! (length l1 + i)%nat = l2 !! i.
Proof. rewrite lookup_app_r by lia. f_equal. lia. Qed.

Lemma length_assigned (cfg : Config) p xs (h : store cfg) :
  length (assigned cfg p xs h) = length h.
Proof.
  revert h. induction xs as [| x xs IH]; intros h; [done |].
  cbn [assigned]. by rewrite IH, length_insert.
Qed.

Lemma assigned_app (cfg : Config) p xs (h t : store cfg) :
  (p < length h)%nat ->
  assigned cfg p xs (h ++ t) = assigned cfg p xs h ++ t.
Proof.
  revert h. induction xs as [| x xs IH]; intros h Hp; [done |].
  cbn [assigned]. rewrite insert_app_l by done.
  apply IH. by rewrite length_insert.
Qed.

Lemma load_snapshot_insert (cfg : Config) (h : store cfg) p x :
  (p < length h)%nat -> load_snapshot (<[p := obj_snapshot x]> h) p = Some x.
Proof.
  intros Hp. unfold load_snapshot. by rewrite list_lookup_insert_eq.
Qed.

Lemma load_snapshot_alloc (cfg : Config) (h : store cfg) x :
  load_snapshot (h ++ [obj_snapshot x]) (length h) = Some x.
Proof. unfold load_snapshot. by rewrite list_lookup_middle. Qed.

(** The loop never fails to load, and what it builds is [allocated]. *)
Lemma QueryMissionControl_loads (cfg : Config) (p : loc) xs :
  forall (h : store cfg) rpcPairs,
    (p < length h)%nat ->
    QueryMissionControl_loop cfg p xs h rpcPairs =
      Some (assigned cfg p xs h ++ allocated cfg (length h) xs,
            rpcPairs ++ entries (length h) (length xs)).
Proof.
  induction xs as [| x xs IH]; intros h rpcPairs Hp.
  - cbn. by rewrite !app_nil_r.
  - cbn [QueryMissionControl_loop].
    rewrite load_snapshot_insert by done. cbn [mbind option_bind].
    unfold alloc. rewrite load_snapshot_alloc.
    cbn [fmap option_fmap option_map mbind option_bind].
    rewrite IH by (rewrite !length_app, length_insert; lia).
    rewrite !length_app, !length_insert. cbn [length].
    replace (length h + 1 + 1 + 1)%nat with (3 + length h)%nat by lia.
    replace (length h + 1 + 1)%nat with (2 + length h)%nat by lia.
    replace (length h + 1)%nat with (S (length h)) by lia.
    rewrite <- !app_assoc. cbn [app].
    rewrite (assigned_app cfg p xs (<[p:=obj_snapshot x]> h))
      by (by rewrite length_insert).
    rewrite <- !app_assoc. by cbn.
Qed.

(** The loop variable keeps its own address: assigning to it changes
    nothing else. *)
Lemma assigned_loop_variable (cfg : Config) xs (h0 : store cfg) o :
  exists o', assigned cfg (length h0) xs (h0 ++ [o]) = h0 ++ [o'].
Proof.
  revert o. induction xs as [| x xs IH]; intros o; [by exists o |].
  cbn [assigned].
  replace (<[length h0:=obj_snapshot x]> (h0 ++ [o]))
    with (h0 ++ [obj_snapshot x : object cfg]); [apply IH |].
  pose proof (insert_app_r h0 [o] 0%nat (obj_snapshot x)) as Hi.
  rewrite Nat.add_0_r in Hi. by rewrite Hi.
Qed.

Lemma lookup_allocated_block {A} (pre t : list A) (o0 o1 o2 : A) :
  (pre ++ o0 :: o1 :: o2 :: t) !! length pre = Some o0
  /\ (pre ++ o0 :: o1 :: o2 :: t) !! S (length pre) = Some o1
  /\ (pre ++ o0 :: o1 :: o2 :: t) !! (2 + length pre)%nat = Some o2.
Proof.
  pose proof (lookup_app_plus pre (o0 :: o1 :: o2 :: t) 0) as H0.
  pose proof (lookup_app_plus pre (o0 :: o1 :: o2 :: t) 1) as H1.
  pose proof (lookup_app_plus pre (o0 :: o1 :: o2 :: t) 2) as H2.
  rewrite Nat.add_0_r in H0.
  replace (length pre + 1)%nat with (S (length pre)) in H1 by lia.
  replace (length pre + 2)%nat with (2 + length pre)%nat in H2 by lia.
  done.
Qed.

(** Reading the entries back from a store that holds the allocated
    objects: each entry yields its own pair's identifiers and history. *)
Lemma read_allocated (cfg : Config) (H : store cfg) xs :
  forall pre post,
    H = pre ++ allocated cfg (length pre) xs ++ post ->
    Forall2 (λ l y, read_PairHistory H l = Some y)
      (entries (length pre) (length xs)) (expected_entry cfg <$> xs)
    /\ entries (length pre) (length xs) ≫= entry_refs H
       = entries_refs (length pre) (length xs).
Proof.
  induction xs as [| x xs IH]; intros pre post HH; [by split |].
  cbn [allocated app length entries entries_refs fmap list_fmap] in *.
  destruct (lookup_allocated_block pre
              (allocated cfg (3 + length pre) xs ++ post)
              (obj_snapshot x)
              (obj_PairData (toRPCPairData cfg (routing.Result x)))
              (obj_PairHistory
                 {| NodeFrom := slice_From (length pre);
                    NodeTo := slice_To (length pre);
                    History := S (length pre) |}))
    as (H0 & H1 & H2).
  rewrite <- HH in H0, H1, H2.
  destruct (IH (pre ++ [obj_snapshot x;
                        obj_PairData (toRPCPairData cfg (routing.Result x));
                        obj_PairHistory
                          {| NodeFrom := slice_From (length pre);
                             NodeTo := slice_To (length pre);
                             History := S (length pre) |}]) post)
    as [IHread IHrefs].
  { rewrite HH, <- app_assoc, length_app. cbn [length app].
    by replace (length pre + 3)%nat with (3 + length pre)%nat by lia. }
  rewrite length_app in IHread, IHrefs. cbn [length] in IHread, IHrefs.
  replace (length pre + 3)%nat with (3 + length pre)%nat in IHread, IHrefs by lia.
  split.
  - constructor; [| exact IHread].
    unfold read_PairHistory. rewrite H2. cbn [NodeFrom NodeTo History].
    unfold read_slice, load_snapshot, read_PairData. by rewrite H0, H1.
  - rewrite bind_cons, IHrefs. f_equal.
    unfold entry_refs. rewrite H2. cbn [NodeFrom NodeTo History slice_var].
    by rewrite decide_True.
Qed.

Lemma entries_refs_ge (n k : nat) (l : loc) :
  l ∈ entries_refs n k -> (n <= l)%nat.
Proof.
  revert n. induction k as [| k IH]; intros n Hl; [by apply elem_of_nil in Hl |].
  cbn [entries_refs] in Hl. apply elem_of_app in Hl as [Hl | Hl].
  - set_unfold. lia.
  - apply IH in Hl. lia.
Qed.

Lemma NoDup_entries_refs (n k : nat) : NoDup (entries_refs n k).
Proof.
  revert n. induction k as [| k IH]; intros n; [constructor |].
  cbn [entries_refs]. apply NoDup_app. split; [| split; [| apply IH]].
  - repeat constructor; set_unfold; lia.
  - intros l Hl Hl'. apply entries_refs_ge in Hl'. set_unfold. lia.
Qed.

(** C8: the response of [QueryMissionControl] has exactly one entry per
    pair of the snapshot, in the snapshot's order; read back, each entry
    gives that pair's [From] and [To] identifiers and the marshalled copy
    of that pair's history; the entries, the variables their slices point
    into and their history records are pairwise distinct, freshly
    allocated objects, none of them the loop variable; and what was in
    the store before the call is left as it was. *)
Theorem QueryMissionControl_entries (cfg : Config) (b : backend cfg)
    (h0 : store cfg) :
  exists h resp,
    QueryMissionControl cfg b h0 = Some (h, resp)
    /\ mapM (read_PairHistory h) resp
       = Some (expected_entry cfg <$> GetHistorySnapshot cfg b)
    /\ length resp = length (GetHistorySnapshot cfg b)
    /\ NoDup (resp ≫= entry_refs h)
    /\ (forall l, l ∈ resp ≫= entry_refs h -> (length h0 < l)%nat)
    /\ take (length h0) h = h0.
Proof.
  unfold QueryMissionControl, alloc.
  rewrite QueryMissionControl_loads by (rewrite length_app; cbn; lia).
  destruct (assigned_loop_variable cfg (GetHistorySnapshot cfg b) h0 obj_zero)
    as [o' Ho'].
  rewrite Ho'. cbn [app]. eexists _, _. split; [reflexivity |].
  destruct (read_allocated cfg
              ((h0 ++ [o']) ++ allocated cfg (length (h0 ++ [obj_zero]))
                                 (GetHistorySnapshot cfg b))
              (GetHistorySnapshot cfg b) (h0 ++ [o']) [])
    as [Hread Hrefs].
  { rewrite app_nil_r, !length_app. by cbn. }
  rewrite !length_app in *. cbn [length] in *.
  split; [by apply mapM_Some_2 |].
  split; [by apply Forall2_length in Hread; rewrite Hread, length_fmap |].
  rewrite Hrefs. split; [apply NoDup_entries_refs |]. split.
  - intros l Hl. apply entries_refs_ge in Hl. lia.
  - rewrite <- app_assoc. by rewrite take_app_length.
Qed.

(** The handler run on a snapshot of two pairs that share a node. *)
Example QueryMissionControl_two_pairs :
  let a := replicate 33 Byte.x02 in
  let b := replicate 33 Byte.x03 in
  let snapshot :=
    [routing.mkPairSnapshot (routing.mkPair a b)
       (routing.mkTimedPairResult 0 0 1600000000 250000);
     routing.mkPairSnapshot (routing.mkPair b a)
       (routing.mkTimedPairResult 1600000100 1000 0 0)] in
  (λ r, mapM (read_PairHistory (cfg := sample.cfg) r.1) r.2)
    <$> QueryMissionControl sample.cfg snapshot []
  = Some (Some
      [(a, b, {| FailTime := 0; FailAmtSat := 0; FailAmtMsat := 0;
                 SuccessTime := 1600000000; SuccessAmtSat := 250;
                 SuccessAmtMsat := 250000 |});
       (b, a, {| FailTime := 1600000100; FailAmtSat := 1; FailAmtMsat := 1000;
                 SuccessTime := 0; SuccessAmtSat := 0;
                 SuccessAmtMsat := 0 |})]).
Proof. reflexivity. Qed.

(** ** Errors of the subscription *)

(** A failed subscription ends [trackPayment] at once, with [NotFound] for
    [ErrPaymentNotInitiated] and the native error for any other. *)
Lemma trackPayment_subscribe_error (cfg : Config) (s : Server)
    (paymentHash : Hash cfg) stream noInflightUpdates sched (b : backend cfg)
    (err : er.R) :
  SubscribePayment cfg paymentHash b = inl err ->
  trackPayment cfg s paymentHash stream noInflightUpdates sched b =
    (stream,
     returned (Some (if er.Is er.ErrPaymentNotInitiated (Some err)
                     then status_Error codes_NotFound (er.String err)
                     else native err))).
Proof. intros Hs. unfold trackPayment. rewrite Hs. by case_match. Qed.

(** An error of [SendPaymentAsync] ends [SendPaymentV2] before any
    tracking: as [AlreadyExists] for the two duplicate-payment codes and
    as the native error for any other. *)
Lemma SendPaymentV2_async_error (cfg : Config) (s : Server)
    (req : SendPaymentRequest cfg) payment stream sched (b b' : backend cfg)
    (err : er.R) :
  extractIntentFromSendRequest cfg req = inr payment ->
  SendPaymentAsync cfg payment b = (b', Some err) ->
  SendPaymentV2 cfg s req stream sched b =
    (b', (stream,
          returned (Some (if er.Is er.ErrPaymentInFlight (Some err)
                             || er.Is er.ErrAlreadyPaid (Some err)
                          then status_Error codes_AlreadyExists (er.String err)
                          else native err)))).
Proof.
  intros Hreq Hsend. unfold SendPaymentV2. rewrite Hreq, Hsend. by case_match.
Qed.

(** ** The handlers over the lifecycle controller *)
Section lifecycle_facts.

Context (base : Config) `{Countable (Hash base)}.
Context (InitPayment : Hash base -> MPPayment base).
Context (detail : er.ErrorCode -> string).

Local Abbreviation cfg := (lifecycle_Config base InitPayment detail).
Local Abbreviation submit := (submit base InitPayment detail).

Implicit Types (st : Controller base) (h : Hash base) (p : MPPayment base).

Lemma submit_other st (c : submission base) h :
  submission_hash base c <> h ->
  payments (submit st c) !! h = payments st !! h.
Proof.
  intros Hne. destruct c as [payment | hash route]; cbn in *.
  - unfold lifecycle_SendPaymentAsync.
    destruct (payments st !! PaymentHash base payment); [done |].
    cbn. by rewrite lookup_insert_ne.
  - unfold lifecycle_SendToRoute.
    destruct (payments st !! hash); [done |].
    destruct (SendToRoute base hash route (others st)) as [o r].
    cbn. by rewrite lookup_insert_ne.
Qed.

(** A hash no submission ever named has no payment. *)
Lemma never_initiated (subs : list (submission base)) st h :
  h ∉ submission_hash base <$> subs ->
  payments (foldl submit st subs) !! h = payments st !! h.
Proof.
  revert st. induction subs as [| c subs IH]; intros st Hh; [done |].
  cbn in *. apply not_elem_of_cons in Hh as [Hne Hh].
  rewrite IH by done. by apply submit_other.
Qed.

(** C6: for a hash that no submission to the controller ever named,
    [trackPayment] (and [TrackPaymentV2] for a request carrying that hash)
    returns the status error with code [NotFound] and writes nothing to
    the stream; the code differs from those of the other error
    returns. *)
Theorem TrackPayment_never_initiated_NotFound (s : Server)
    (future : Hash base -> list (MPPayment base)) (o : backend base)
    (subs : list (submission base)) h
    (stream : ServerStream (rpc_Payment base)) (noInflightUpdates : bool)
    (sched : list nat) :
  h ∉ submission_hash base <$> subs ->
  let st := foldl submit (fresh_controller base future o) subs in
  let not_found :=
    Some (status_Error codes_NotFound (detail er.ErrPaymentNotInitiated)) in
  trackPayment cfg s h stream noInflightUpdates sched st
  = (stream, returned not_found)
  /\ (forall request,
        MakeHash base (track_PaymentHash request) = inr h ->
        TrackPaymentV2 cfg s request stream sched st
        = (stream, returned not_found))
  /\ status_Code not_found = codes_NotFound
  /\ (forall e msg,
        status_Code (Some (native e)) <> codes_NotFound
        /\ status_Code (Some (status_Error codes_AlreadyExists msg))
           <> codes_NotFound).
Proof.
  intros Hh st not_found.
  assert (Hst : payments st !! h = None).
  { subst st. rewrite never_initiated by done. apply lookup_empty. }
  assert (Htrack : forall n,
             trackPayment cfg s h stream n sched st = (stream, returned not_found)).
  { intros n. unfold trackPayment. cbn [SubscribePayment lifecycle_Config].
    unfold lifecycle_SubscribePayment. by rewrite Hst. }
  split; [apply Htrack |]. split; [| by split].
  intros request Hreq. unfold TrackPaymentV2.
  cbn [MakeHash lifecycle_Config]. rewrite Hreq. apply Htrack.
Qed.

(** ** Duplicate submissions *)

(** C2, as the code has it: a submission for a hash that already has a
    payment is rejected and changes neither the controller nor the
    stream; [SendPaymentV2] and (when no attempt record comes back)
    [SendToRouteV2] both report it as the gRPC status [AlreadyExists],
    whether the payment is in flight or finished; which of the two it is
    shows only in the status message, the text of [ErrPaymentInFlight] or
    of [ErrAlreadyPaid]. *)
Theorem duplicate_submission_AlreadyExists (s : Server) st
    (req : SendPaymentRequest base) (payment : LightningPayment base) p
    (stream : ServerStream (rpc_Payment base)) (sched : list nat) :
  extractIntentFromSendRequest base req = inr payment ->
  payments st !! PaymentHash base payment = Some p ->
  let rejection :=
    status_Error codes_AlreadyExists
      (detail (if terminal (Status base p)
               then er.ErrAlreadyPaid else er.ErrPaymentInFlight)) in
  SendPaymentV2 cfg s req stream sched st
  = (st, (stream, returned (Some rejection)))
  /\ (forall (rreq : SendToRouteRequest cfg) r route,
        route_Route rreq = Some r ->
        UnmarshalRoute base r = inr route ->
        MakeHash base (route_PaymentHash rreq) = inr (PaymentHash base payment) ->
        SendToRouteV2 cfg rreq st = (st, (None, Some rejection))).
Proof.
  intros Hreq Hp rejection. split.
  - unfold SendPaymentV2.
    cbn [extractIntentFromSendRequest SendPaymentAsync lifecycle_Config].
    rewrite Hreq. unfold lifecycle_SendPaymentAsync. rewrite Hp.
    unfold duplicate_error, rejection. by destruct (terminal (Status base p)).
  - intros rreq r route Hr Hu Hh. unfold SendToRouteV2.
    rewrite Hr. cbn [UnmarshalRoute MakeHash SendToRoute lifecycle_Config].
    rewrite Hu, Hh. unfold lifecycle_SendToRoute. rewrite Hp.
    unfold SendToRouteV2_reply, duplicate_error, rejection.
    by destruct (terminal (Status base p)).
Qed.

(** ** The first update and the end of the stream *)

Lemma until_terminal_head p (l : list (MPPayment base)) :
  exists rest, (until_terminal base (p :: l)).1 = p :: rest.
Proof.
  cbn. destruct (terminal (Status base p)); [by exists [] |].
  destruct (until_terminal base l) as [l' c]. by exists l'.
Qed.

Lemma until_terminal_closed (l : list (MPPayment base)) :
  (until_terminal base l).2 = true ->
  exists before t,
    (until_terminal base l).1 = before ++ [t]
    /\ terminal (Status base t) = true.
Proof.
  induction l as [| q l IH]; [done |]. cbn.
  destruct (terminal (Status base q)) eqn:Hq.
  - intros _. by exists [], q.
  - destruct (until_terminal base l) as [l' c]. cbn in *.
    intros Hc. destruct (IH Hc) as (before & t & -> & Ht).
    by exists (q :: before), t.
Qed.

Lemma terminal_let_through (noInflightUpdates : bool) p :
  terminal (Status base p) = true -> let_through cfg noInflightUpdates p.
Proof.
  intros Ht [_ Hst]. cbn [Status lifecycle_Config] in Hst.
  by rewrite Hst in Ht.
Qed.

(** C4, as the code has it: on a stream that is neither shut down,
    cancelled nor broken, and whose updates marshal, tracking an initiated
    payment delivers the payment's state at subscribe time first, unless
    the no-inflight-updates option is set and that state is [InFlight];
    when the payment reaches a terminal state, that update is the last
    one delivered and the call then returns nil; until then the call
    waits; and tracking a payment that is already terminal (already
    [Succeeded], say) delivers exactly that one update and returns nil. *)
Theorem TrackPayment_current_state_then_close (s : Server) st h p
    (stream : ServerStream (rpc_Payment base)) (noInflightUpdates : bool)
    (sched : list nat) (marshal : MPPayment base -> rpc_Payment base) :
  payments st !! h = Some p ->
  quit s = chan_open ->
  Context_Err stream = None -> Send_fault stream = None ->
  (forall q, MarshalPayment base q = inr (marshal q)) ->
  exists delivered out,
    trackPayment cfg s h stream noInflightUpdates sched st
    = ({| sent := sent stream ++ delivered; Context_Err := None;
          Send_fault := None |}, out)
    /\ (noInflightUpdates = false \/ Status base p <> StatusInFlight ->
        exists rest, delivered = marshal p :: rest)
    /\ ((until_terminal base (p :: upcoming st h)).2 = true ->
        out = returned None
        /\ exists before t,
             delivered = before ++ [marshal t]
             /\ terminal (Status base t) = true)
    /\ ((until_terminal base (p :: upcoming st h)).2 = false -> out = blocked)
    /\ (terminal (Status base p) = true ->
        delivered = [marshal p] /\ out = returned None).
Proof.
  intros Hp Hq Hc Hf Hm.
  unfold trackPayment. cbn [SubscribePayment lifecycle_Config].
  unfold lifecycle_SubscribePayment. rewrite Hp.
  destruct (until_terminal_head p (upcoming st h)) as [rest Hrest].
  pose proof (until_terminal_closed (p :: upcoming st h)) as Hclosed.
  assert (Hterm : terminal (Status base p) = true ->
                  until_terminal base (p :: upcoming st h) = ([p], true))
    by (intros Ht; cbn; by rewrite Ht).
  destruct (until_terminal base (p :: upcoming st h)) as [l c].
  cbn [fst snd Updates Updates_closed] in *. subst l.
  rewrite (trackPayment_loop_quiet cfg s noInflightUpdates marshal
             (p :: rest) c Hq (λ q _ _, Hm q) sched stream Hc Hf).
  eexists _, _. split; [reflexivity |].
  split; [| split; [| split]].
  - intros Hfirst. rewrite filter_cons_True; [by eexists |].
    intros [Hn Hst]. destruct Hfirst as [Hfirst | Hfirst]; [congruence | done].
  - intros ->. split; [done |].
    destruct (Hclosed eq_refl) as (before & t & Heq & Ht).
    rewrite Heq, filter_app, fmap_app.
    rewrite filter_cons_True by by apply terminal_let_through.
    by eexists _, t.
  - by intros ->.
  - intros Ht. specialize (Hterm Ht). injection Hterm as -> ->.
    by rewrite filter_cons_True by by apply terminal_let_through.
Qed.

End lifecycle_facts.

Lemma TrackPayment_never_initiated_NotFound_witness :
  trackPayment sample.tracked New 9%N sample.stream false []
    (foldl (submit sample.cfg (λ _, StatusInFlight) sample.detail)
       (fresh_controller sample.cfg (λ _, []) [])
       [submit_payment sample.cfg 7%N; submit_route sample.cfg 8%N []])
  = (sample.stream,
     returned (Some (status_Error codes_NotFound "payment isn't initiated"))).
Proof.
  apply (TrackPayment_never_initiated_NotFound sample.cfg
           (λ _, StatusInFlight) sample.detail New (λ _, []) []
           [submit_payment sample.cfg 7%N; submit_route sample.cfg 8%N []]
           9%N sample.stream false []).
  cbn. rewrite !elem_of_cons, elem_of_nil. by intros [? | [? | ?]].
Defined.

Lemma duplicate_submission_AlreadyExists_witness :
  SendPaymentV2 sample.tracked New (8%N, false) sample.stream []
    sample.controller
  = (sample.controller,
     (sample.stream,
      returned (Some (status_Error codes_AlreadyExists
                        "invoice is already paid")))).
Proof.
  apply (duplicate_submission_AlreadyExists sample.cfg (λ _, StatusInFlight)
           sample.detail New sample.controller (8%N, false) 8%N
           StatusSucceeded sample.stream [] eq_refl eq_refl).
Defined.

(** C2, as stated, fails: the rejection of a submission for a payment in
    flight and the rejection of one for a finished payment carry the
    same status code, [AlreadyExists]; they differ in the message text
    only. *)
Lemma duplicate_submission_codes_counterexample :
  exists m7 m8,
    (SendPaymentV2 sample.tracked New (7%N, false) sample.stream []
       sample.controller).2.2
    = returned (Some (status_Error codes_AlreadyExists m7))
    /\ (SendPaymentV2 sample.tracked New (8%N, false) sample.stream []
          sample.controller).2.2
       = returned (Some (status_Error codes_AlreadyExists m8))
    /\ m7 <> m8
    /\ status_Code (Some (status_Error codes_AlreadyExists m7))
       = status_Code (Some (status_Error codes_AlreadyExists m8)).
Proof.
  exists "payment is in transition", "invoice is already paid".
  split; [reflexivity |]. split; [reflexivity |]. split; [discriminate | reflexivity].
Qed.

Lemma TrackPayment_current_state_then_close_witness :
  trackPayment sample.tracked New 8%N sample.stream true [] sample.controller
  = ({| sent := [StatusSucceeded]; Context_Err := None; Send_fault := None |},
     returned None).
Proof.
  destruct (TrackPayment_current_state_then_close sample.cfg
              (λ _, StatusInFlight) sample.detail New sample.controller 8%N
              StatusSucceeded sample.stream true [] (λ q, q)
              eq_refl eq_refl eq_refl eq_refl (λ q, eq_refl))
    as (delivered & out & Heq & _ & _ & _ & Hterm).
  destruct (Hterm eq_refl) as [-> ->]. exact Heq.
Defined.

(** C4, as stated, fails: with the no-inflight-updates option set, the
    first (and only) item delivered for payment 7, in flight at subscribe
    time, is its later terminal state, not its state at subscribe time. *)
Lemma TrackPayment_first_update_counterexample :
  payments sample.controller !! 7%N = Some StatusInFlight
  /\ trackPayment sample.tracked New 7%N sample.stream true [] sample.controller
     = ({| sent := [StatusSucceeded]; Context_Err := None; Send_fault := None |},
        returned None)
  /\ head (sent (trackPayment sample.tracked New 7%N sample.stream true []
                   sample.controller).1)
     <> Some StatusInFlight.
Proof.
  split; [reflexivity |]. split; [reflexivity |]. discriminate.
Qed.

(** * Further properties of the code *)

(** ** [readCookieFile] *)

Lemma cut_at_append (sep : Ascii.ascii) (u p : string) :
  cut_at sep u = None -> cut_at sep (u +:+ String sep p) = Some (u, p).
Proof.
  induction u as [| c u IH].
  - intros _. change (EmptyString +:+ String sep p) with (String sep p).
    cbn -[Ascii.eqb]. by rewrite Ascii.eqb_refl.
  - change (String c u +:+ String sep p) with (String c (u +:+ String sep p)).
    cbn -[Ascii.eqb]. destruct (Ascii.eqb c sep); [done |].
    destruct (cut_at sep u) as [[a b] |]; [done |].
    intros _. by rewrite IH.
Qed.

Lemma cut_at_Some (sep : Ascii.ascii) (s u p : string) :
  cut_at sep s = Some (u, p) ->
  s = u +:+ String sep p /\ cut_at sep u = None.
Proof.
  revert u. induction s as [| c s IH]; intros u; [done |]. cbn -[Ascii.eqb].
  destruct (Ascii.eqb c sep) eqn:Hc.
  - intros [= <- <-]. apply Ascii.eqb_eq in Hc as ->. done.
  - destruct (cut_at sep s) as [[a b] |]; [| done].
    intros [= <- <-]. destruct (IH a eq_refl) as [-> Ha].
    split; [done |]. cbn -[Ascii.eqb]. by rewrite Hc, Ha.
Qed.

Lemma SplitN_2_length (s : string) (sep : Ascii.ascii) :
  length (SplitN_2 s sep) = 2%nat <-> is_Some (cut_at sep s).
Proof.
  unfold SplitN_2. destruct (cut_at sep s) as [[a b] |]; cbn.
  - split; [by eexists | done].
  - split; [done | by intros [? ?]].
Qed.

Lemma readCookieFile_scanned (er_E : option string -> option er.R)
    (AddMessage : er.R -> string -> er.R) (f : cookie_file)
    (username password : string) :
  Open_err f = None -> Scanner_Err f = None ->
  readCookieFile er_E AddMessage f = Ret (username, password, None)
  <-> Scanner_Text f = username +:+ String colon password
      /\ cut_at colon username = None.
Proof.
  intros Ho Hs. unfold readCookieFile. rewrite Ho, Hs.
  unfold SplitN_2. split.
  - destruct (cut_at colon (Scanner_Text f)) as [[a b] |] eqn:Hcut; cbn.
    + intros [= <- <-]. by apply cut_at_Some.
    + destruct (er_E None); intros; simplify_eq.
  - intros [-> Hu]. by rewrite cut_at_append.
Qed.

(** X1: for a cookie file that opens and scans, [readCookieFile] returns
    credentials without an error exactly when the first line is the user
    name, a colon and the password, the user name holding no colon: the
    line is split at its first colon, and a password may hold further
    colons. *)
Theorem readCookieFile_credentials (er_E : option string -> option er.R)
    (AddMessage : er.R -> string -> er.R) (f : cookie_file)
    (username password : string) :
  Open_err f = None -> Scanner_Err f = None ->
  readCookieFile er_E AddMessage f = Ret (username, password, None)
  <-> Scanner_Text f = username +:+ String colon password
      /\ cut_at colon username = None.
Proof. apply readCookieFile_scanned. Qed.

Lemma readCookieFile_credentials_witness :
  readCookieFile (λ _, None) (λ e _, e)
    {| Open_err := None; Scanner_Err := None;
       Scanner_Text := "alice:s3cret:with:colons" |}
  = Ret ("alice", "s3cret:with:colons", None).
Proof.
  apply (readCookieFile_credentials (λ _, None) (λ e _, e)
           {| Open_err := None; Scanner_Err := None;
              Scanner_Text := "alice:s3cret:with:colons" |}
           "alice" "s3cret:with:colons" eq_refl eq_refl).
  split; reflexivity.
Defined.

(** X2: [readCookieFile] does not report a failure to open or to scan the
    file: it then returns empty credentials and a nil error, which is
    what it returns for a file whose first line is a lone colon. *)
Theorem readCookieFile_swallows_io_errors
    (er_E : option string -> option er.R)
    (AddMessage : er.R -> string -> er.R) (f : cookie_file) :
  is_Some (Open_err f) \/ is_Some (Scanner_Err f) ->
  readCookieFile er_E AddMessage f = Ret (EmptyString, EmptyString, None)
  /\ readCookieFile er_E AddMessage f
     = readCookieFile er_E AddMessage
         {| Open_err := None; Scanner_Err := None;
            Scanner_Text := String colon EmptyString |}.
Proof.
  intros Hf. unfold readCookieFile at 1 2.
  destruct (Open_err f) as [e |]; [done |].
  destruct (Scanner_Err f) as [e |]; [done |].
  destruct Hf as [[? ?] | [? ?]]; done.
Qed.

Lemma readCookieFile_swallows_io_errors_witness :
  readCookieFile (λ _, None) (λ e _, e)
    {| Open_err := Some "no such file or directory"; Scanner_Err := None;
       Scanner_Text := "" |}
  = Ret (EmptyString, EmptyString, None).
Proof.
  apply (readCookieFile_swallows_io_errors (λ _, None) (λ e _, e)
           {| Open_err := Some "no such file or directory";
              Scanner_Err := None; Scanner_Text := "" |}).
  left. by eexists.
Defined.

(** X3: when the file opens and scans but its first line holds no colon
    (an empty file included), [readCookieFile] returns no credentials:
    it reaches [er.E(errr)] with a nil [errr], and either returns empty
    strings with the error that gives, or, if that is nil, fails on
    [AddMessage]. *)
Theorem readCookieFile_malformed (er_E : option string -> option er.R)
    (AddMessage : er.R -> string -> er.R) (f : cookie_file) :
  Open_err f = None -> Scanner_Err f = None ->
  cut_at colon (Scanner_Text f) = None <->
  (forall username password,
     readCookieFile er_E AddMessage f <> Ret (username, password, None)).
Proof.
  intros Ho Hs. split.
  - intros Hcut u p Hr.
    apply (readCookieFile_scanned er_E AddMessage f u p Ho Hs) in Hr
      as [Ht Hu].
    rewrite Ht, cut_at_append in Hcut; done.
  - intros Hr. destruct (cut_at colon (Scanner_Text f)) as [[a b] |] eqn:Hcut;
      [| done].
    exfalso. apply (Hr a b).
    apply (readCookieFile_scanned er_E AddMessage f a b Ho Hs).
    by apply cut_at_Some.
Qed.

Lemma readCookieFile_malformed_witness :
  readCookieFile (λ _, None) (λ e _, e)
    {| Open_err := None; Scanner_Err := None; Scanner_Text := "" |}
  <> Ret (EmptyString, EmptyString, None).
Proof.
  apply (proj1 (readCookieFile_malformed (λ _, None) (λ e _, e)
                  {| Open_err := None; Scanner_Err := None;
                     Scanner_Text := "" |}
                  eq_refl eq_refl)).
  reflexivity.
Defined.

(** ** Macaroon permissions and [New] *)

(** X4: every permission that some router RPC requires is one of the
    operations [New] bakes into the router macaroon, every RPC requires at
    least one, and no RPC is listed twice: the macaroon [New] writes
    authorises every call of the service. *)
Theorem macPermissions_covered_by_macaroonOps :
  Forall (λ entry, entry.2 <> [] /\ entry.2 ⊆ macaroonOps) macPermissions
  /\ NoDup macPermissions.*1.
Proof.
  split; apply (bool_decide_unpack _); by vm_compute.
Qed.

Section New_facts.

Context {FS Macaroon : Type} (io : MacFiles FS Macaroon).

Implicit Types (cfg : MacConfig Macaroon) (fs : FS).

(** Resolving the path once is enough. *)
Lemma resolve_RouterMacPath_idem cfg :
  resolve_RouterMacPath io (resolve_RouterMacPath io cfg)
  = resolve_RouterMacPath io cfg.
Proof.
  unfold resolve_RouterMacPath.
  destruct (bool_decide (RouterMacPath cfg = EmptyString)) eqn:Hp; cbn.
  - destruct (bool_decide (Join io _ _ = _)); reflexivity.
  - by rewrite Hp.
Qed.

Lemma resolve_RouterMacPath_MacService cfg :
  MacService (resolve_RouterMacPath io cfg) = MacService cfg.
Proof. unfold resolve_RouterMacPath. by case_bool_decide. Qed.

(** When [New] has nothing to write. *)
Definition macaroon_not_needed cfg fs : Prop :=
  match MacService cfg with
  | None => True
  | Some svc =>
      StatelessInit svc = true
      \/ FileExists io (RouterMacPath (resolve_RouterMacPath io cfg)) fs = true
  end.

Lemma New_server_not_needed cfg fs :
  macaroon_not_needed cfg fs ->
  New_server io cfg fs
  = (resolve_RouterMacPath io cfg, fs, (Some New, Some macPermissions, None)).
Proof.
  unfold macaroon_not_needed, New_server.
  rewrite resolve_RouterMacPath_MacService.
  destruct (MacService cfg) as [svc |]; [| done].
  intros [-> | ->]; [done |]. by rewrite andb_false_r.
Qed.

(** X5: without a macaroon service, with stateless init, or with a file
    already present at the macaroon path, [New] succeeds and leaves the
    file system as it is: an existing macaroon file is never
    overwritten.  The macaroon path is the configured one, or
    [router.macaroon] joined to the network directory when none is
    configured, and is stored back into the configuration. *)
Theorem New_keeps_existing_macaroon cfg fs :
  macaroon_not_needed cfg fs ->
  New_server io cfg fs
  = (resolve_RouterMacPath io cfg, fs, (Some New, Some macPermissions, None))
  /\ (RouterMacPath cfg <> EmptyString ->
      resolve_RouterMacPath io cfg = cfg)
  /\ (RouterMacPath cfg = EmptyString ->
      RouterMacPath (resolve_RouterMacPath io cfg)
      = Join io (NetworkDir cfg) DefaultRouterMacFilename).
Proof.
  intros Hn. split; [by apply New_server_not_needed |].
  unfold resolve_RouterMacPath. split; intros Hp.
  - by rewrite bool_decide_eq_false_2.
  - by rewrite bool_decide_eq_true_2.
Qed.

(** The steps of [New] when the macaroon has to be made: when baking,
    marshalling and
    writing succeed, [New] returns the server after exactly one write, of
    the marshalled macaroon for [macaroonOps], to the resolved path; when
    baking or marshalling fails the file system is untouched and no
    server is returned; when the write fails the file is removed again
    and no server is returned. *)
Theorem New_writes_macaroon cfg fs (svc : MacaroonService Macaroon) :
  MacService cfg = Some svc ->
  StatelessInit svc = false ->
  let path := RouterMacPath (resolve_RouterMacPath io cfg) in
  FileExists io path fs = false ->
  (forall err, NewMacaroon svc macaroonOps = inl err ->
     New_server io cfg fs
     = (resolve_RouterMacPath io cfg, fs, (None, None, Some err)))
  /\ (forall routerMac errr,
        NewMacaroon svc macaroonOps = inr routerMac ->
        MarshalBinary io routerMac = inl errr ->
        New_server io cfg fs
        = (resolve_RouterMacPath io cfg, fs,
           (None, None, er_E io (Some errr))))
  /\ (forall routerMac routerMacBytes,
        NewMacaroon svc macaroonOps = inr routerMac ->
        MarshalBinary io routerMac = inr routerMacBytes ->
        New_server io cfg fs
        = match WriteFile io path routerMacBytes fs with
          | (fs', Some errr) =>
              (resolve_RouterMacPath io cfg, Remove io path fs',
               (None, None, er_E io (Some errr)))
          | (fs', None) =>
              (resolve_RouterMacPath io cfg, fs',
               (Some New, Some macPermissions, None))
          end).
Proof.
  intros Hsvc Hst path Hex. unfold New_server.
  rewrite resolve_RouterMacPath_MacService, Hsvc, Hst. fold path.
  rewrite Hex. cbn [negb andb].
  split; [| split].
  - by intros err ->.
  - by intros routerMac errr -> ->.
  - intros routerMac routerMacBytes -> ->.
    by destruct (WriteFile io path routerMacBytes fs) as [fs' [errr |]].
Qed.

(** X7: [New] can be repeated: on a file system where a written file
    exists afterwards, a second [New] with the configuration and file
    system the first successful one left behind succeeds and changes
    neither. *)
Theorem New_twice cfg fs cfg' fs' srv perms :
  (forall p d fs0 fs1, WriteFile io p d fs0 = (fs1, None) ->
                       FileExists io p fs1 = true) ->
  New_server io cfg fs = (cfg', fs', (Some srv, perms, None)) ->
  New_server io cfg' fs' = (cfg', fs', (Some New, Some macPermissions, None)).
Proof.
  intros Hwrite Hnew.
  assert (Hcfg : cfg' = resolve_RouterMacPath io cfg
                 /\ macaroon_not_needed cfg' fs').
  { unfold New_server in Hnew. unfold macaroon_not_needed.
    rewrite resolve_RouterMacPath_MacService in Hnew.
    destruct (MacService cfg) as [svc |] eqn:Hsvc.
    - destruct (StatelessInit svc) eqn:Hst; cbn [negb andb] in Hnew.
      + injection Hnew as <- <- _ _. split; [done |].
        rewrite resolve_RouterMacPath_MacService, Hsvc. by left.
      + destruct (FileExists io _ fs) eqn:Hex; cbn [negb] in Hnew.
        * injection Hnew as <- <- _ _. split; [done |].
          rewrite resolve_RouterMacPath_MacService, Hsvc.
          right. by rewrite resolve_RouterMacPath_idem.
        * destruct (NewMacaroon svc macaroonOps) as [err | routerMac];
            [done |].
          destruct (MarshalBinary io routerMac) as [errr | routerMacBytes];
            [done |].
          destruct (WriteFile io _ routerMacBytes fs) as [fs1 [errr |]] eqn:Hw;
            [done |].
          injection Hnew as <- <- _ _. split; [done |].
          rewrite resolve_RouterMacPath_MacService, Hsvc.
          right. rewrite resolve_RouterMacPath_idem. by eapply Hwrite.
    - injection Hnew as <- <- _ _. split; [done |].
      by rewrite resolve_RouterMacPath_MacService, Hsvc. }
  destruct Hcfg as [-> Hn].
  rewrite New_server_not_needed by done.
  by rewrite resolve_RouterMacPath_idem.
Qed.

End New_facts.

(** ** [trackPayment] under any schedule and environment *)

Lemma track_ready_elem {P M} (pending : list P) (closed : bool) (q : chan)
    (stream : ServerStream M) (c : track_case P) :
  c ∈ track_ready pending closed q stream ->
  match c with
  | track_update (Some item) => exists rest, pending = item :: rest
  | track_update None => pending = [] /\ closed = true
  | track_quit => q = chan_closed
  | track_ctx e => Context_Err stream = Some e
  end.
Proof.
  unfold track_ready. rewrite !elem_of_app. intros [Hc | [Hc | Hc]].
  - destruct pending as [| item rest].
    + destruct closed; [| by apply elem_of_nil in Hc].
      by apply list_elem_of_singleton in Hc as ->.
    + apply list_elem_of_singleton in Hc as ->. by exists rest.
  - case_decide; [| by apply elem_of_nil in Hc].
    by apply list_elem_of_singleton in Hc as ->.
  - destruct (Context_Err stream) as [e |]; [| by apply elem_of_nil in Hc].
    by apply list_elem_of_singleton in Hc as ->.
Qed.

Lemma Send_inv {M} (m : M) (st st' : ServerStream M) (e : option error) :
  Send m st = (st', e) ->
  match e with
  | None => st' = push m st
  | Some err =>
      st' = st /\ exists n, Send_fault st = Some (n, err)
                            /\ (n <= length (sent st))%nat
  end.
Proof.
  unfold Send. destruct (Send_fault st) as [[n err] |].
  - case_decide; intros [= <- <-]; [| done]. split; [done |]. by exists n.
  - by intros [= <- <-].
Qed.

(** How a run of the loop ended, in terms of the number [k] of pending
    updates it got through. *)
Definition track_ending (cfg : Config) (s : Server)
    (pending : list (MPPayment cfg)) (closed : bool)
    (stream stream' : ServerStream (rpc_Payment cfg)) (k : nat)
    (out : outcome) : Prop :=
  match out with
  | returned None => k = length pending /\ closed = true
  | blocked =>
      k = length pending /\ closed = false /\ quit s = chan_open
      /\ Context_Err stream = None
  | returned (Some e) =>
      (e = native (er.Default er.errServerShuttingDown)
       /\ quit s = chan_closed)
      \/ Context_Err stream = Some e
      \/ (exists q err, pending !! k = Some q
                        /\ MarshalPayment cfg q = inl err /\ e = native err)
      \/ (exists n, Send_fault stream = Some (n, e)
                    /\ (n <= length (sent stream'))%nat
                    /\ is_Some (pending !! k))
  end.

(** An ending of the loop on the rest of the updates is an ending on all
    of them, one update further on. *)
Lemma track_ending_cons (cfg : Config) (s : Server) p pending closed
    (stream1 stream stream' : ServerStream (rpc_Payment cfg)) k out :
  Context_Err stream1 = Context_Err stream ->
  Send_fault stream1 = Send_fault stream ->
  track_ending cfg s pending closed stream1 stream' k out ->
  track_ending cfg s (p :: pending) closed stream stream' (S k) out.
Proof.
  intros Hc Hf. unfold track_ending. rewrite Hc, Hf.
  destruct out as [[e |] |]; cbn [length lookup list_lookup].
  - done.
  - by intros [-> ->].
  - by intros (-> & -> & ? & ?).
Qed.

Local Ltac track_stops :=
  exists 0%nat, []; rewrite app_nil_r;
  cbn [fst snd take filter list_filter length track_ending];
  split; [lia |]; split; [done |]; split; [constructor |];
  split; [done |]; split; [done |].

(** Every run of the loop, whatever is ready when and whatever the
    runtime draws: it got through the first [k] pending updates, sent the
    marshalled ones among them that the option lets through, in order,
    and ended in one of the ways of [track_ending]. *)
Lemma trackPayment_loop_run (cfg : Config) (s : Server)
    (noInflightUpdates : bool) (closed : bool)
    (pending : list (MPPayment cfg)) :
  forall sched stream,
    let r := trackPayment_loop cfg s noInflightUpdates sched pending closed
               stream in
    exists k rpcs,
      (k <= length pending)%nat
      /\ sent r.1 = sent stream ++ rpcs
      /\ Forall2 (λ q m, MarshalPayment cfg q = inr m)
           (filter (let_through cfg noInflightUpdates) (take k pending)) rpcs
      /\ Context_Err r.1 = Context_Err stream
      /\ Send_fault r.1 = Send_fault stream
      /\ track_ending cfg s pending closed stream r.1 k r.2.
Proof.
  induction pending as [| p pending IH]; intros sched stream r; subst r.
  - cbn [trackPayment_loop].
    destruct (select _ _) as [c |] eqn:Hsel.
    + apply select_elem_of, track_ready_elem in Hsel.
      destruct c as [[item |] | | e].
      * by destruct Hsel.
      * destruct Hsel as [_ ->]. by track_stops.
      * track_stops. by left.
      * track_stops. right. by left.
    + apply select_None in Hsel. unfold track_ready in Hsel.
      apply app_eq_nil in Hsel as [H1 H2]. apply app_eq_nil in H2 as [H2 H3].
      destruct closed; [done |]. destruct (quit s) eqn:Hq; [| done].
      destruct (Context_Err stream) eqn:Hctx; [done |].
      by track_stops.
  - cbn [trackPayment_loop].
    destruct (select _ _) as [c |] eqn:Hsel; [| by apply select_None in Hsel].
    apply select_elem_of, track_ready_elem in Hsel.
    destruct c as [[item |] | | e].
    + destruct Hsel as [rest [= <- <-]]. unfold track_item.
      destruct (noInflightUpdates && bool_decide (Status cfg p = StatusInFlight))
        eqn:Hskip.
      * destruct (IH (tl sched) stream) as (k & rpcs & Hk & Hs & Hf & Hc & Hft & He).
        exists (S k), rpcs. cbn [take length].
        rewrite filter_cons_False.
        2:{ intros Hlt. apply Hlt. apply andb_true_iff in Hskip as [-> Hst].
            by apply bool_decide_eq_true_1 in Hst. }
        split; [lia |]. do 4 (split; [done |]).
        by apply (track_ending_cons cfg s p pending closed stream).
      * destruct (MarshalPayment cfg p) as [err | rpcPayment] eqn:Hm.
        { track_stops. right. right. left. by exists p, err. }
        destruct (Send rpcPayment stream) as [stream1 [errr |]] eqn:Hsend.
        { apply Send_inv in Hsend as (-> & n & Hn & Hle).
          track_stops. right. right. right. exists n. by repeat split. }
        apply Send_inv in Hsend as ->.
        destruct (IH (tl sched) (push rpcPayment stream))
          as (k & rpcs & Hk & Hs & Hf & Hc & Hft & He).
        exists (S k), (rpcPayment :: rpcs). cbn [take length].
        rewrite filter_cons_True.
        2:{ intros [-> Hst]. cbn in Hskip.
            by rewrite bool_decide_eq_true_2 in Hskip. }
        split; [lia |].
        split; [rewrite Hs; cbn; by rewrite <- app_assoc |].
        split; [by constructor |]. do 2 (split; [done |]).
        by apply (track_ending_cons cfg s p pending closed
                    (push rpcPayment stream)).
    + by destruct Hsel.
    + track_stops. by left.
    + track_stops. right. by left.
Qed.

(** X8: whatever happens around it (shutdown, cancellation, transport
    faults, marshalling errors, any draw of the runtime), the loop of
    [trackPayment] sends only marshalled updates of the subscription, in
    the subscription's order, none twice and none invented: what it adds
    to the stream is the marshalling of the let-through updates among a
    prefix of the pending ones. *)
Theorem trackPayment_delivers_in_order (cfg : Config) (s : Server)
    (noInflightUpdates : bool) (sched : list nat)
    (pending : list (MPPayment cfg)) (closed : bool)
    (stream : ServerStream (rpc_Payment cfg)) :
  let r := trackPayment_loop cfg s noInflightUpdates sched pending closed
             stream in
  exists k rpcs,
    (k <= length pending)%nat
    /\ sent r.1 = sent stream ++ rpcs
    /\ Forall2 (λ q m, MarshalPayment cfg q = inr m)
         (filter (let_through cfg noInflightUpdates) (take k pending)) rpcs.
Proof.
  intros r.
  destruct (trackPayment_loop_run cfg s noInflightUpdates closed pending
              sched stream) as (k & rpcs & Hk & Hs & Hf & _).
  by exists k, rpcs.
Qed.

(** X9: the loop of [trackPayment] returns nil only when the control
    tower has closed the subscription and every pending update that the
    option lets through has been delivered before. *)
Theorem trackPayment_nil_only_when_complete (cfg : Config) (s : Server)
    (noInflightUpdates : bool) (sched : list nat)
    (pending : list (MPPayment cfg)) (closed : bool)
    (stream stream' : ServerStream (rpc_Payment cfg)) :
  trackPayment_loop cfg s noInflightUpdates sched pending closed stream
  = (stream', returned None) ->
  closed = true
  /\ exists rpcs,
       sent stream' = sent stream ++ rpcs
       /\ Forall2 (λ q m, MarshalPayment cfg q = inr m)
            (filter (let_through cfg noInflightUpdates) pending) rpcs.
Proof.
  intros Hr.
  destruct (trackPayment_loop_run cfg s noInflightUpdates closed pending
              sched stream) as (k & rpcs & Hk & Hs & Hf & _ & _ & He).
  rewrite Hr in Hs, He. cbn in Hs, He. destruct He as [-> ->].
  split; [done |]. exists rpcs. by rewrite firstn_all in Hf.
Qed.

Lemma trackPayment_nil_only_when_complete_witness :
  exists rpcs,
    rpcs = [StatusSucceeded]
    /\ Forall2 (λ q m, MarshalPayment sample.cfg q = inr m)
         (filter (let_through sample.cfg true)
            [StatusInFlight; StatusSucceeded]) rpcs.
Proof.
  destruct (trackPayment_nil_only_when_complete sample.cfg New true []
              [StatusInFlight; StatusSucceeded] true sample.stream
              {| sent := [StatusSucceeded]; Context_Err := None;
                 Send_fault := None |} eq_refl)
    as (_ & rpcs & Hs & Hf).
  exists rpcs. split; [symmetry; exact Hs | exact Hf].
Defined.

(** X10: every error the loop of [trackPayment] returns has one of four
    origins: the server's [quit] channel is closed and the error is
    [errServerShuttingDown]; it is the error of the stream's done
    context; it is the marshalling error of the next pending update; or
    it is the transport's error for a [Send] of the next pending
    update. *)
Theorem trackPayment_error_origin (cfg : Config) (s : Server)
    (noInflightUpdates : bool) (sched : list nat)
    (pending : list (MPPayment cfg)) (closed : bool)
    (stream stream' : ServerStream (rpc_Payment cfg)) (e : error) :
  trackPayment_loop cfg s noInflightUpdates sched pending closed stream
  = (stream', returned (Some e)) ->
  (e = native (er.Default er.errServerShuttingDown) /\ quit s = chan_closed)
  \/ Context_Err stream = Some e
  \/ (exists q err, q ∈ pending /\ MarshalPayment cfg q = inl err
                    /\ e = native err)
  \/ (exists n, Send_fault stream = Some (n, e)
                /\ (n <= length (sent stream'))%nat).
Proof.
  intros Hr.
  destruct (trackPayment_loop_run cfg s noInflightUpdates closed pending
              sched stream) as (k & rpcs & _ & _ & _ & _ & _ & He).
  rewrite Hr in He. cbn in He.
  destruct He as [He | [He | [(q & err & Hq & Hm & ->) | (n & Hn & Hle & _)]]].
  - by left.
  - right. by left.
  - right. right. left. exists q, err.
    split; [by eapply list_elem_of_lookup_2 | done].
  - right. right. right. by exists n.
Qed.

Lemma trackPayment_error_origin_witness :
  Context_Err
    {| sent := ([] : list PaymentStatus);
       Context_Err := Some (ctx_Err "context canceled");
       Send_fault := None |}
  = Some (ctx_Err "context canceled").
Proof.
  destruct (trackPayment_error_origin sample.cfg New false [] [] false
              (mkStream [] (Some (ctx_Err "context canceled")) None)
              (mkStream [] (Some (ctx_Err "context canceled")) None)
              (ctx_Err "context canceled") eq_refl)
    as [[? Hq] | [Hc | [(q & err & Hq & _) | (n & Hn & _)]]].
  - discriminate Hq.
  - exact Hc.
  - by apply elem_of_nil in Hq.
  - discriminate Hn.
Defined.

(** X11: the loop of [trackPayment] cannot hang once the subscription is
    closed, the server is shut down or the stream's context is done: in
    each of these cases it returns, whatever the runtime draws. *)
Theorem trackPayment_returns_when_over (cfg : Config) (s : Server)
    (noInflightUpdates : bool) (sched : list nat)
    (pending : list (MPPayment cfg)) (closed : bool)
    (stream : ServerStream (rpc_Payment cfg)) :
  closed = true \/ quit s = chan_closed \/ is_Some (Context_Err stream) ->
  exists err,
    (trackPayment_loop cfg s noInflightUpdates sched pending closed stream).2
    = returned err.
Proof.
  intros Hover.
  destruct (trackPayment_loop_run cfg s noInflightUpdates closed pending
              sched stream) as (k & rpcs & _ & _ & _ & _ & _ & He).
  destruct (trackPayment_loop cfg s noInflightUpdates sched pending closed
              stream).2 as [err |]; [by exists err |].
  cbn in He. destruct He as (_ & Hc & Hq & Hctx). exfalso.
  destruct Hover as [-> | [Hq' | [e He]]]; [done | congruence | congruence].
Qed.

Lemma trackPayment_returns_when_over_witness :
  exists err,
    (trackPayment_loop sample.cfg
       (set_quit chan_closed New) false [] [] false sample.stream).2
    = returned err.
Proof.
  apply (trackPayment_returns_when_over sample.cfg (set_quit chan_closed New)
           false [] [] false sample.stream).
  right. left. reflexivity.
Defined.

(** ** [SubscribeHtlcEvents] under any schedule and environment *)

Lemma htlc_ready_elem {E M} (pending : list E) (client_quit : bool) (q : chan)
    (stream : ServerStream M) (c : htlc_case E) :
  c ∈ htlc_ready pending client_quit q stream ->
  match c with
  | htlc_update event => exists rest, pending = event :: rest
  | htlc_ctx e => Context_Err stream = Some e
  | htlc_client_quit => client_quit = true
  | htlc_quit => q = chan_closed
  end.
Proof.
  unfold htlc_ready. rewrite !elem_of_app. intros [Hc | [Hc | [Hc | Hc]]].
  - destruct pending as [| event rest]; [by apply elem_of_nil in Hc |].
    apply list_elem_of_singleton in Hc as ->. by exists rest.
  - destruct (Context_Err stream) as [e |]; [| by apply elem_of_nil in Hc].
    by apply list_elem_of_singleton in Hc as ->.
  - destruct client_quit; [| by apply elem_of_nil in Hc].
    by apply list_elem_of_singleton in Hc as ->.
  - case_decide; [| by apply elem_of_nil in Hc].
    by apply list_elem_of_singleton in Hc as ->.
Qed.

(** Every run of the loop: it delivered the marshalled first [k] pending
    events, in order; it never returns nil; and it waits only with
    nothing pending, no quit signal and a live context. *)
Lemma SubscribeHtlcEvents_loop_run (cfg : Config) (s : Server)
    (client_quit : bool) (pending : list (HtlcEvent cfg)) :
  forall sched stream,
    let r := SubscribeHtlcEvents_loop cfg s sched pending client_quit stream in
    exists k rpcs,
      (k <= length pending)%nat
      /\ sent r.1 = sent stream ++ rpcs
      /\ Forall2 (λ ev m, rpcHtlcEvent cfg ev = inr m) (take k pending) rpcs
      /\ Context_Err r.1 = Context_Err stream
      /\ r.2 <> returned None
      /\ (r.2 = blocked ->
          k = length pending /\ client_quit = false /\ quit s = chan_open
          /\ Context_Err stream = None).
Proof.
  induction pending as [| ev pending IH]; intros sched stream r; subst r.
  - cbn [SubscribeHtlcEvents_loop]. exists 0%nat, []. rewrite app_nil_r.
    destruct (select _ _) as [c |] eqn:Hsel.
    + apply select_elem_of, htlc_ready_elem in Hsel.
      destruct c as [event | e | |]; [by destruct Hsel | | |];
        cbn; repeat split; try done; try lia; try constructor.
    + apply select_None in Hsel. unfold htlc_ready in Hsel.
      apply app_eq_nil in Hsel as [_ H2]. apply app_eq_nil in H2 as [H2 H3].
      apply app_eq_nil in H3 as [H3 H4].
      destruct (Context_Err stream) eqn:Hctx; [done |].
      destruct client_quit; [done |]. destruct (quit s) eqn:Hq; [| done].
      cbn. repeat split; try done; try constructor.
  - cbn [SubscribeHtlcEvents_loop].
    destruct (select _ _) as [c |] eqn:Hsel; [| by apply select_None in Hsel].
    apply select_elem_of, htlc_ready_elem in Hsel.
    destruct c as [event | e | |].
    + destruct Hsel as [rest [= <- <-]].
      destruct (rpcHtlcEvent cfg ev) as [err | rpcEvent] eqn:Hm.
      { exists 0%nat, []. rewrite app_nil_r. cbn.
        repeat split; try done; try lia; try constructor. }
      destruct (Send rpcEvent stream) as [stream1 [errr |]] eqn:Hsend.
      { apply Send_inv in Hsend as (-> & _).
        exists 0%nat, []. rewrite app_nil_r. cbn.
        repeat split; try done; try lia; try constructor. }
      apply Send_inv in Hsend as ->.
      destruct (IH (tl sched) (push rpcEvent stream))
        as (k & rpcs & Hk & Hs & Hf & Hc & Hn & Hb).
      exists (S k), (rpcEvent :: rpcs). cbn [take length].
      split; [lia |].
      split; [rewrite Hs; cbn; by rewrite <- app_assoc |].
      split; [by constructor |]. split; [done |]. split; [done |].
      intros Hbl. destruct (Hb Hbl) as (-> & ? & ? & ?). done.
    + exists 0%nat, []. rewrite app_nil_r. cbn.
      repeat split; try done; try lia; try constructor.
    + exists 0%nat, []. rewrite app_nil_r. cbn.
      repeat split; try done; try lia; try constructor.
    + exists 0%nat, []. rewrite app_nil_r. cbn.
      repeat split; try done; try lia; try constructor.
Qed.

(** X12: [SubscribeHtlcEvents] never returns nil: whatever the
    subscription, the stream, the server's state and the runtime's draws,
    the handler either keeps waiting or ends with an error. *)
Theorem SubscribeHtlcEvents_never_returns_nil (cfg : Config) (s : Server)
    (stream : ServerStream (rpc_HtlcEvent cfg)) (sched : list nat)
    (b : backend cfg) :
  (SubscribeHtlcEvents cfg s stream sched b).2 <> returned None.
Proof.
  unfold SubscribeHtlcEvents.
  destruct (Backend_SubscribeHtlcEvents cfg b) as [err | htlcClient]; [done |].
  destruct (SubscribeHtlcEvents_loop_run cfg s (htlc_Quit htlcClient)
              (htlc_Updates htlcClient) sched stream)
    as (k & rpcs & _ & _ & _ & _ & Hn & _).
  exact Hn.
Qed.

(** X13: [SubscribeHtlcEvents] forwards the events of the subscription in
    their order, each marshalled by [rpcHtlcEvent], none twice and none
    skipped before a later one; and whenever the handler is waiting,
    every event that has arrived has been sent, the subscription has not
    quit, the server is not shut down and the context is live. *)
Theorem SubscribeHtlcEvents_forwards_in_order (cfg : Config) (s : Server)
    (sched : list nat) (pending : list (HtlcEvent cfg)) (client_quit : bool)
    (stream : ServerStream (rpc_HtlcEvent cfg)) :
  let r := SubscribeHtlcEvents_loop cfg s sched pending client_quit stream in
  exists k rpcs,
    (k <= length pending)%nat
    /\ sent r.1 = sent stream ++ rpcs
    /\ Forall2 (λ ev m, rpcHtlcEvent cfg ev = inr m) (take k pending) rpcs
    /\ (r.2 = blocked ->
        k = length pending /\ client_quit = false /\ quit s = chan_open
        /\ Context_Err stream = None).
Proof.
  intros r.
  destruct (SubscribeHtlcEvents_loop_run cfg s client_quit pending sched stream)
    as (k & rpcs & Hk & Hs & Hf & _ & _ & Hb).
  by exists k, rpcs.
Qed.

(** ** Examples of [New] *)

Lemma New_keeps_existing_macaroon_witness :
  New_server sample_files.io sample_files.cfg
    {[ "/data/pkt/router.macaroon" := [Byte.x07] ]}
  = (mkMacConfig "/data/pkt/router.macaroon" "/data/pkt"
       (Some sample_files.service),
     {[ "/data/pkt/router.macaroon" := [Byte.x07] ]},
     (Some New, Some macPermissions, None)).
Proof.
  apply (New_keeps_existing_macaroon sample_files.io sample_files.cfg
           {[ "/data/pkt/router.macaroon" := [Byte.x07] ]}).
  right. reflexivity.
Defined.

Lemma New_writes_macaroon_witness :
  New_server sample_files.io sample_files.cfg ∅
  = (mkMacConfig "/data/pkt/router.macaroon" "/data/pkt"
       (Some sample_files.service),
     {[ "/data/pkt/router.macaroon" := [Byte.x01] ]},
     (Some New, Some macPermissions, None)).
Proof.
  assert (Hex : FileExists sample_files.io
                  (RouterMacPath
                     (resolve_RouterMacPath sample_files.io sample_files.cfg))
                  (∅ : gmap string bytes) = false) by (vm_compute; reflexivity).
  destruct (New_writes_macaroon sample_files.io sample_files.cfg ∅
              sample_files.service eq_refl eq_refl Hex)
    as (_ & _ & Hw).
  rewrite (Hw [Byte.x01] [Byte.x01] eq_refl eq_refl). reflexivity.
Defined.

Lemma New_twice_witness :
  New_server sample_files.io
    (mkMacConfig "/data/pkt/router.macaroon" "/data/pkt"
       (Some sample_files.service))
    {[ "/data/pkt/router.macaroon" := [Byte.x01] ]}
  = (mkMacConfig "/data/pkt/router.macaroon" "/data/pkt"
       (Some sample_files.service),
     {[ "/data/pkt/router.macaroon" := [Byte.x01] ]},
     (Some New, Some macPermissions, None)).
Proof.
  apply (New_twice sample_files.io sample_files.cfg ∅ _ _ New
           (Some macPermissions)).
  - intros p d fs0 fs1 [= <-]. cbn. apply bool_decide_eq_true_2.
    rewrite lookup_insert_eq. by eexists.
  - reflexivity.
Defined.

(** ** Submissions reach the stream only through the router *)

(** X14: [SendPaymentV2] writes to the stream, waits or returns nil only
    for a request whose payment intent was extracted and which the
    router's [SendPaymentAsync] accepted; its result is then that of
    [trackPayment] for the payment's hash with the request's
    no-inflight-updates option, on the backend state the router left. *)
Theorem SendPaymentV2_streams_only_accepted (cfg : Config) (s : Server)
    (req : SendPaymentRequest cfg) (stream : ServerStream (rpc_Payment cfg))
    (sched : list nat) (b : backend cfg) :
  let r := SendPaymentV2 cfg s req stream sched b in
  r.2.1 <> stream \/ r.2.2 = blocked \/ r.2.2 = returned None ->
  exists payment,
    extractIntentFromSendRequest cfg req = inr payment
    /\ SendPaymentAsync cfg payment b = (r.1, None)
    /\ r.2 = trackPayment cfg s (PaymentHash cfg payment) stream
               (NoInflightUpdates cfg req) sched r.1.
Proof.
  intros r. subst r. unfold SendPaymentV2.
  destruct (extractIntentFromSendRequest cfg req) as [err | payment].
  { cbn. intros [? | [? | ?]]; done. }
  destruct (SendPaymentAsync cfg payment b) as [b' [err |]] eqn:Hsend.
  - destruct (er.Is er.ErrPaymentInFlight (Some err)
              || er.Is er.ErrAlreadyPaid (Some err));
      cbn; intros [? | [? | ?]]; done.
  - intros _. by exists payment.
Qed.

Lemma SendPaymentV2_streams_only_accepted_witness :
  exists payment,
    extractIntentFromSendRequest sample.cfg (5%N, false) = inr payment
    /\ SendPaymentAsync sample.cfg payment [] = ([], None).
Proof.
  destruct (SendPaymentV2_streams_only_accepted sample.cfg New (5%N, false)
              sample.stream [] []) as (payment & He & Hs & _).
  - right. right. reflexivity.
  - exists payment. split; [exact He | exact Hs].
Defined.

(** X15: [SendToRouteV2] never returns both a reply and an error; the
    backend changes only through the router's [SendToRoute], which is
    called only for a request with a route that unmarshals and a valid
    hash; and the handler returns neither reply nor error exactly when
    that call returned neither an attempt nor an error. *)
Theorem SendToRouteV2_reply_or_error (cfg : Config)
    (req : SendToRouteRequest cfg) (b : backend cfg) :
  let r := SendToRouteV2 cfg req b in
  ¬ (is_Some r.2.1 /\ is_Some r.2.2)
  /\ ((r.1 <> b \/ is_Some r.2.1 \/ r.2.2 = None) ->
      exists r0 route hash attempt err,
        route_Route req = Some r0
        /\ UnmarshalRoute cfg r0 = inr route
        /\ MakeHash cfg (route_PaymentHash req) = inr hash
        /\ SendToRoute cfg hash route b = (r.1, (attempt, err))
        /\ (r.2 = (None, None) <-> attempt = None /\ err = None)).
Proof.
  intros r. subst r. unfold SendToRouteV2.
  destruct (route_Route req) as [r0 |] eqn:Hr0.
  2:{ cbn. split; [by intros [[? ?] _] |].
      intros [? | [[? ?] | ?]]; congruence. }
  destruct (UnmarshalRoute cfg r0) as [e | route] eqn:Hu.
  { cbn. split; [by intros [[? ?] _] |].
    intros [? | [[? ?] | ?]]; congruence. }
  destruct (MakeHash cfg (route_PaymentHash req)) as [e | hash] eqn:Hh.
  { cbn. split; [by intros [[? ?] _] |].
    intros [? | [[? ?] | ?]]; congruence. }
  destruct (SendToRoute cfg hash route b) as [b' [attempt err]] eqn:Hsend.
  cbn [fst snd]. unfold SendToRouteV2_reply. split.
  - destruct attempt as [a |].
    + destruct (MarshalHTLCAttempt cfg a); cbn; intros [[? ?] [? ?]]; done.
    + destruct err as [e |]; [| cbn; by intros [[? ?] _]].
      destruct (er.Is _ _ || er.Is _ _); cbn; intros [[? ?] _]; done.
  - intros _. exists r0, route, hash, attempt, err.
    do 4 (split; [done |]). split; [| by intros [-> ->]].
    destruct attempt as [a |].
    + destruct (MarshalHTLCAttempt cfg a); cbn; intros; simplify_eq.
    + destruct err as [e |]; [| done].
      destruct (er.Is _ _ || er.Is _ _); cbn; intros; simplify_eq.
Qed.

Lemma SendToRouteV2_reply_or_error_witness :
  exists r0 route hash,
    route_Route sample.route_request = Some r0
    /\ UnmarshalRoute sample.cfg r0 = inr route
    /\ MakeHash sample.cfg (route_PaymentHash sample.route_request) = inr hash.
Proof.
  destruct (SendToRouteV2_reply_or_error sample.cfg sample.route_request [])
    as [_ H].
  destruct H as (r0 & route & hash & attempt & err & Hr & Hu & Hh & _).
  - right. left. by eexists.
  - exists r0, route, hash. split; [exact Hr |]. split; [exact Hu | exact Hh].
Defined.

(** ** [BuildRoute]: the hop list and the amount *)

(** X16: the hop list of a [BuildRoute] request is taken whole or not at
    all: either every public key parses and the hops are the parsed keys
    in the request's order, or the handler returns the parse error of the
    first key that does not parse, without reaching route
    construction. *)
Theorem BuildRoute_hops_all_or_first_error (cfg : Config)
    (req : BuildRouteRequest) (b : backend cfg) :
  match BuildRoute_hops cfg (HopPubkeys req) with
  | inr hops =>
      Forall2 (λ pubkeyBytes pubkey,
                 NewVertexFromBytes cfg pubkeyBytes = inr pubkey)
        (HopPubkeys req) hops
  | inl err =>
      BuildRoute cfg req b = (None, Some (native err))
      /\ exists before pubkeyBytes after,
           HopPubkeys req = before ++ pubkeyBytes :: after
           /\ Forall (λ k, exists v, NewVertexFromBytes cfg k = inr v) before
           /\ NewVertexFromBytes cfg pubkeyBytes = inl err
  end.
Proof.
  assert (Hhops : forall keys,
    match BuildRoute_hops cfg keys with
    | inr hops =>
        Forall2 (λ k v, NewVertexFromBytes cfg k = inr v) keys hops
    | inl err =>
        exists before k after,
          keys = before ++ k :: after
          /\ Forall (λ k, exists v, NewVertexFromBytes cfg k = inr v) before
          /\ NewVertexFromBytes cfg k = inl err
    end).
  { induction keys as [| k keys IH]; cbn; [constructor |].
    destruct (NewVertexFromBytes cfg k) as [err | v] eqn:Hk.
    - exists [], k, keys. by repeat split.
    - destruct (BuildRoute_hops cfg keys) as [err | hops].
      + destruct IH as (before & k' & after & -> & Hb & Hk').
        exists (k :: before), k', after. repeat split; [| done].
        constructor; [by exists v | done].
      + by constructor. }
  specialize (Hhops (HopPubkeys req)). unfold BuildRoute.
  by destruct (BuildRoute_hops cfg (HopPubkeys req)) as [err | hops].
Qed.

(** X17: a negative amount in a [BuildRoute] request is not rejected: the
    conversion to [lnwire.MilliSatoshi] turns it into the unsigned value
    [2 ^ 64 + amt], at least [2 ^ 63], and that is the amount route
    construction is asked for. *)
Theorem BuildRoute_negative_amount (cfg : Config) (req : BuildRouteRequest)
    (b : backend cfg) (hops : list (Vertex cfg)) :
  is_int64 (AmtMsat req) -> AmtMsat req < 0 ->
  BuildRoute_hops cfg (HopPubkeys req) = inr hops ->
  2 ^ 63 <= 2 ^ 64 + AmtMsat req < 2 ^ 64
  /\ BuildRoute cfg req b =
       match Router_BuildRoute cfg (Some (2 ^ 64 + AmtMsat req)) hops
               (if bool_decide (OutgoingChanId req = 0) then None
                else Some (OutgoingChanId req))
               (FinalCltvDelta req) b with
       | inl err => (None, Some (native err))
       | inr route =>
           match MarshalRoute cfg route with
           | inl err => (None, Some (native err))
           | inr rpcRoute => (Some rpcRoute, None)
           end
       end.
Proof.
  intros Hint Hneg Hhops. unfold is_int64 in Hint. split; [lia |].
  unfold BuildRoute. rewrite Hhops.
  rewrite bool_decide_eq_false_2 by lia. cbn [negb].
  replace (wrapU64 (AmtMsat req)) with (2 ^ 64 + AmtMsat req).
  - by destruct (bool_decide (OutgoingChanId req = 0)).
  - unfold wrapU64.
    replace (AmtMsat req) with ((2 ^ 64 + AmtMsat req) + (-1) * 2 ^ 64) at 2
      by lia.
    rewrite Z_mod_plus_full, Z.mod_small by lia. done.
Qed.

Lemma BuildRoute_negative_amount_witness :
  BuildRoute sample.cfg
    {| AmtMsat := -1; FinalCltvDelta := 40; OutgoingChanId := 0;
       HopPubkeys := [] |} []
  = (Some ([] : list N), None).
Proof.
  destruct (BuildRoute_negative_amount sample.cfg
              {| AmtMsat := -1; FinalCltvDelta := 40; OutgoingChanId := 0;
                 HopPubkeys := [] |} [] [])
    as [_ Heq].
  - unfold is_int64. cbn. lia.
  - cbn. lia.
  - reflexivity.
  - rewrite Heq. reflexivity.
Defined.

(** ** [toRPCPairData]: amounts and times on the wire *)

Lemma wrap64_cases (z : Z) :
  is_uint64 z ->
  (z < 2 ^ 63 -> wrap64 z = z)
  /\ (2 ^ 63 <= z -> wrap64 z = z - 2 ^ 64).
Proof.
  unfold is_uint64, wrap64. intros Hz. split; intros Hc.
  - rewrite Z.mod_small by lia. lia.
  - replace (z + 2 ^ 63) with ((z - 2 ^ 63) + 1 * 2 ^ 64) by lia.
    rewrite Z_mod_plus_full, Z.mod_small by lia. lia.
Qed.

(** X18: [toRPCPairData] reports the milli-satoshi watermarks exactly as
    long as they are below [2 ^ 63]; a stored amount of [2 ^ 63] or more
    comes out negative, lowered by [2 ^ 64].  A watermark whose time is
    the zero time is reported with timestamp 0, and so is one observed
    exactly at the Unix epoch. *)
Theorem toRPCPairData_amounts (cfg : Config)
    (data : routing.TimedPairResult (Time cfg)) :
  is_uint64 (routing.FailAmt data) -> is_uint64 (routing.SuccessAmt data) ->
  let rpcData := toRPCPairData cfg data in
  (routing.FailAmt data < 2 ^ 63 -> FailAmtMsat rpcData = routing.FailAmt data)
  /\ (2 ^ 63 <= routing.FailAmt data ->
      FailAmtMsat rpcData = routing.FailAmt data - 2 ^ 64
      /\ FailAmtMsat rpcData < 0)
  /\ (routing.SuccessAmt data < 2 ^ 63 ->
      SuccessAmtMsat rpcData = routing.SuccessAmt data)
  /\ (2 ^ 63 <= routing.SuccessAmt data ->
      SuccessAmtMsat rpcData = routing.SuccessAmt data - 2 ^ 64
      /\ SuccessAmtMsat rpcData < 0)
  /\ (FailTime rpcData = 0 <->
      IsZero cfg (routing.FailTime data) = true
      \/ Unix cfg (routing.FailTime data) = 0)
  /\ (SuccessTime rpcData = 0 <->
      IsZero cfg (routing.SuccessTime data) = true
      \/ Unix cfg (routing.SuccessTime data) = 0).
Proof.
  intros Hf Hs rpcData. subst rpcData. cbn.
  destruct (wrap64_cases _ Hf) as [Hf1 Hf2].
  destruct (wrap64_cases _ Hs) as [Hs1 Hs2].
  unfold is_uint64 in *.
  split; [done |]. split; [intros Hc; rewrite Hf2 by done; lia |].
  split; [done |]. split; [intros Hc; rewrite Hs2 by done; lia |].
  split.
  - destruct (IsZero cfg (routing.FailTime data)); cbn; [by intuition |].
    split; [by right | by intros [? | ?]].
  - destruct (IsZero cfg (routing.SuccessTime data)); cbn; [by intuition |].
    split; [by right | by intros [? | ?]].
Qed.

Lemma toRPCPairData_amounts_witness :
  FailAmtMsat
    (toRPCPairData sample.cfg
       (routing.mkTimedPairResult 1600000000 (2 ^ 63) 0 1000))
  = - 2 ^ 63.
Proof.
  destruct (toRPCPairData_amounts sample.cfg
              (routing.mkTimedPairResult 1600000000 (2 ^ 63) 0 1000))
    as (_ & Hneg & _).
  - unfold is_uint64. cbn. lia.
  - unfold is_uint64. cbn. lia.
  - destruct Hneg as [Heq _]; [cbn; lia |]. rewrite Heq. reflexivity.
Defined.

(** ** Channel backups *)

Section chanbackup_facts.

Context {OpenChannel OutPoint PublicKey Addr Single : Type}.
Context (IdentityPub : OpenChannel -> PublicKey).
Context (NewSingle : OpenChannel -> list Addr -> Single).
Context (Sprint : er.R -> string).

Local Abbreviation assemble :=
  (assembleChanBackup IdentityPub NewSingle).
Local Abbreviation backups_loop :=
  (FetchStaticChanBackups_loop IdentityPub NewSingle).

Implicit Types
  (chanSource : LiveChannelSource OpenChannel OutPoint PublicKey Addr).

Lemma FetchStaticChanBackups_loop_spec chanSource (openChans : list OpenChannel) :
  forall staticChanBackups,
    match backups_loop chanSource openChans staticChanBackups with
    | inr all =>
        exists new,
          all = staticChanBackups ++ new
          /\ Forall2 (λ c backup, assemble chanSource c = inr backup)
               openChans new
    | inl err =>
        exists before c after,
          openChans = before ++ c :: after
          /\ Forall (λ c', exists backup, assemble chanSource c' = inr backup)
               before
          /\ AddrsForNode chanSource (IdentityPub c) = inl err
    end.
Proof.
  induction openChans as [| c openChans IH]; intros acc; cbn.
  - exists []. by rewrite app_nil_r.
  - destruct (assemble chanSource c) as [err | backup] eqn:Hc.
    + exists [], c, openChans. repeat split; [constructor |].
      unfold assembleChanBackup in Hc.
      by destruct (AddrsForNode chanSource (IdentityPub c)); simplify_eq.
    + specialize (IH (acc ++ [backup])).
      destruct (backups_loop chanSource openChans (acc ++ [backup]))
        as [err | all].
      * destruct IH as (before & c' & after & -> & Hb & Hc').
        exists (c :: before), c', after. repeat split; [| done].
        constructor; [by exists backup | done].
      * destruct IH as (new & -> & Hnew).
        exists (backup :: new). rewrite <- app_assoc. split; [done |].
        by constructor.
Qed.

(** X19: [FetchStaticChanBackups] is all or nothing: it returns one
    backup per open channel, in the order of [FetchAllChannels], each the
    [Single] assembled from that channel and its peer's addresses; or, if
    the addresses of some channel's peer cannot be fetched, it returns no
    backups at all and the error of the first such channel; or the error
    of [FetchAllChannels] itself. *)
Theorem FetchStaticChanBackups_all_or_nothing chanSource :
  match FetchAllChannels chanSource with
  | inl err =>
      FetchStaticChanBackups IdentityPub NewSingle chanSource = inl err
  | inr openChans =>
      match FetchStaticChanBackups IdentityPub NewSingle chanSource with
      | inr staticChanBackups =>
          Forall2
            (λ c backup,
               exists nodeAddrs,
                 AddrsForNode chanSource (IdentityPub c) = inr nodeAddrs
                 /\ backup = NewSingle c nodeAddrs)
            openChans staticChanBackups
      | inl err =>
          exists before c after,
            openChans = before ++ c :: after
            /\ Forall
                 (λ c', exists nodeAddrs,
                    AddrsForNode chanSource (IdentityPub c') = inr nodeAddrs)
                 before
            /\ AddrsForNode chanSource (IdentityPub c) = inl err
      end
  end.
Proof.
  unfold FetchStaticChanBackups.
  destruct (FetchAllChannels chanSource) as [err | openChans]; [done |].
  pose proof (FetchStaticChanBackups_loop_spec chanSource openChans []) as Hl.
  destruct (backups_loop chanSource openChans []) as [err | all].
  - destruct Hl as (before & c & after & -> & Hb & Hc).
    exists before, c, after. repeat split; [| done].
    eapply Forall_impl; [exact Hb |]. intros c' [backup Hc'].
    unfold assembleChanBackup in Hc'.
    destruct (AddrsForNode chanSource (IdentityPub c')) as [e | addrs];
      [done | by exists addrs].
  - destruct Hl as (new & -> & Hnew). cbn.
    eapply Forall2_impl; [exact Hnew |]. intros c backup Hc.
    unfold assembleChanBackup in Hc.
    destruct (AddrsForNode chanSource (IdentityPub c)) as [e | addrs];
      simplify_eq. by exists addrs.
Qed.

(** X20: the two ways to a backup agree: when [FetchStaticChanBackups]
    succeeds, the backup it holds at the position of an open channel is
    the one [FetchBackupForChan] returns for any channel point under
    which the source finds that channel. *)
Theorem FetchBackupForChan_agrees chanSource openChans staticChanBackups
    (i : nat) (c : OpenChannel) (chanPoint : OutPoint) :
  FetchAllChannels chanSource = inr openChans ->
  FetchStaticChanBackups IdentityPub NewSingle chanSource
  = inr staticChanBackups ->
  openChans !! i = Some c ->
  FetchChannel chanSource chanPoint = inr c ->
  exists backup,
    staticChanBackups !! i = Some backup
    /\ FetchBackupForChan IdentityPub NewSingle Sprint chanPoint chanSource
       = inr backup.
Proof.
  intros Hall Hbackups Hi Hc.
  unfold FetchStaticChanBackups in Hbackups. rewrite Hall in Hbackups.
  pose proof (FetchStaticChanBackups_loop_spec chanSource openChans []) as Hl.
  rewrite Hbackups in Hl. destruct Hl as (new & -> & Hnew). cbn.
  destruct (Forall2_lookup_l _ _ _ _ _ Hnew Hi) as (backup & Hb & Ha).
  exists backup. split; [done |].
  unfold FetchBackupForChan. by rewrite Hc, Ha.
Qed.

End chanbackup_facts.

Lemma FetchBackupForChan_agrees_witness :
  exists backup,
    [((1%nat, 10%nat), ["203.0.113.7:9735"]);
     ((2%nat, 20%nat), ["203.0.113.7:9735"])] !! 1%nat = Some backup
    /\ FetchBackupForChan snd pair (λ e, er.String e) 2%nat
         sample_files.source = inr backup.
Proof.
  apply (FetchBackupForChan_agrees snd pair (λ e, er.String e)
           sample_files.source [(1%nat, 10%nat); (2%nat, 20%nat)]
           [((1%nat, 10%nat), ["203.0.113.7:9735"]);
            ((2%nat, 20%nat), ["203.0.113.7:9735"])]
           1%nat (2%nat, 20%nat) 2%nat eq_refl eq_refl eq_refl eq_refl).
Defined.

(** ** [Stop] below the wrap-around *)

(** X21: up to [2 ^ 32] consecutive calls of [Stop] on a new server all
    return without a panic; after them [quit] is closed, the [started]
    counter and the interceptor flag are untouched and the [shutdown]
    counter holds the number of calls as an [int32]; and as long as fewer
    than [2 ^ 32] calls were made, one more [Stop] changes the counter
    only. *)
Theorem Stop_closes_quit_once_below_wraparound (n : N) :
  (n < 2 ^ 32)%N ->
  exists s,
    calls Stop (N.succ n) New = Ret s
    /\ quit s = chan_closed /\ started s = 0
    /\ forwardInterceptorActive s = 0
    /\ shutdown s = wrap32 (Z.of_N n + 1)
    /\ ((N.succ n < 2 ^ 32)%N ->
        Stop s = Ret (set_shutdown (wrap32 (shutdown s + 1)) s, None)).
Proof.
  intros Hn. rewrite calls_Stop_New by done. eexists.
  split; [reflexivity |]. do 4 (split; [reflexivity |]).
  intros Hn'. apply Stop_again. cbn [shutdown]. rewrite wrap32_succ.
  replace (Z.of_N n + 1 + 1) with (Z.of_N (N.succ n) + 1) by lia.
  apply wrap32_not_one. lia.
Qed.

Lemma Stop_closes_quit_once_below_wraparound_witness :
  exists s,
    calls Stop 5 New = Ret s /\ quit s = chan_closed /\ shutdown s = 5.
Proof.
  destruct (Stop_closes_quit_once_below_wraparound 4) as (s & Hs & Hq & _ & _ & Hsh & _).
  - reflexivity.
  - exists s. split; [exact Hs |]. split; [exact Hq | exact Hsh].
Defined.

(** ** [New] and the macaroon file *)

Section New_invariant.

Context {FS Macaroon : Type} (io : MacFiles FS Macaroon).

(** X6: on a file system where a written file exists and a removed file
    does not, [New] with a macaroon service and without stateless init
    returns a server exactly when a file is at the macaroon path
    afterwards: a failure to bake, marshal or write the macaroon leaves
    no file behind that a later [New] would take for a macaroon. *)
Theorem New_server_iff_macaroon_file (cfg : MacConfig Macaroon) (fs : FS)
    (svc : MacaroonService Macaroon) :
  (forall p d fs0 fs1, WriteFile io p d fs0 = (fs1, None) ->
                       FileExists io p fs1 = true) ->
  (forall p fs0, FileExists io p (Remove io p fs0) = false) ->
  MacService cfg = Some svc -> StatelessInit svc = false ->
  let r := New_server io cfg fs in
  is_Some r.2.1.1 <-> FileExists io (RouterMacPath r.1.1) r.1.2 = true.
Proof.
  intros Hwrite Hremove Hsvc Hst r. subst r. unfold New_server.
  rewrite resolve_RouterMacPath_MacService, Hsvc, Hst. cbn [negb andb].
  destruct (FileExists io (RouterMacPath (resolve_RouterMacPath io cfg)) fs)
    eqn:Hex; cbn [negb].
  { cbn. split; [done | by eexists]. }
  destruct (NewMacaroon svc macaroonOps) as [err | routerMac].
  { cbn. rewrite Hex. split; [by intros [? ?] | done]. }
  destruct (MarshalBinary io routerMac) as [errr | routerMacBytes].
  { cbn. rewrite Hex. split; [by intros [? ?] | done]. }
  destruct (WriteFile io _ routerMacBytes fs) as [fs1 [errr |]] eqn:Hw; cbn.
  - rewrite Hremove. split; [by intros [? ?] | done].
  - rewrite (Hwrite _ _ _ _ Hw). split; [done | by eexists].
Qed.

End New_invariant.

Lemma New_server_iff_macaroon_file_witness :
  is_Some (New_server sample_files.io sample_files.cfg ∅).2.1.1.
Proof.
  apply (New_server_iff_macaroon_file sample_files.io sample_files.cfg ∅
           sample_files.service).
  - intros p d fs0 fs1 [= <-]. cbn. apply bool_decide_eq_true_2.
    rewrite lookup_insert_eq. by eexists.
  - intros p fs0. cbn. apply bool_decide_eq_false_2.
    rewrite lookup_delete_eq. by intros [? ?].
  - reflexivity.
  - reflexivity.
  - vm_compute. reflexivity.
Defined.
